(** * EduBoost API server: a shallow embedding of [server/index.js]

    The development follows the server source top-down: JavaScript values
    and strings, the configuration constants, [ApiError] and
    [normalizeError], the per-IP rate limiter, the request validator, the
    session store, the upstream error classifier and the route handlers.
    Theorems about these definitions come after all of them. *)

From Stdlib Require Import ZArith QArith_base List Ascii String.
From stdpp Require Import gmap list pretty.

Local Open Scope Z_scope.

(** ** JavaScript strings

    A JavaScript string is a sequence of UTF-16 code units: [length] counts
    code units and [trim] removes the code units of the ECMAScript
    WhiteSpace and LineTerminator productions. *)

Abbreviation jsstring := (list N).

Definition js (s : string) : jsstring := N_of_ascii <$> list_ascii_of_string s.

(** The double quote, for the template literals that contain one. *)
Definition dquote : jsstring := [34%N].

Definition isWhiteSpace (c : N) : bool :=
  ((9 <=? c) && (c <=? 13) || (c =? 32) || (c =? 160) || (c =? 5760)
   || (8192 <=? c) && (c <=? 8202) || (c =? 8232) || (c =? 8233)
   || (c =? 8239) || (c =? 8287) || (c =? 12288) || (c =? 65279))%N.

Fixpoint trimStart (s : jsstring) : jsstring :=
  match s with
  | c :: s' => if isWhiteSpace c then trimStart s' else s
  | [] => []
  end.

Definition trimEnd (s : jsstring) : jsstring := rev (trimStart (rev s)).

Definition trim (s : jsstring) : jsstring := trimEnd (trimStart s).

Fixpoint startsWith (s prefix : jsstring) : bool :=
  match prefix, s with
  | [], _ => true
  | p :: prefix', c :: s' => (p =? c)%N && startsWith s' prefix'
  | _ :: _, [] => false
  end.

Fixpoint includes (s needle : jsstring) : bool :=
  startsWith s needle ||
  match s with
  | [] => false
  | _ :: s' => includes s' needle
  end.

(** [s.length] as a number. *)
Definition jslength (s : jsstring) : Z := Z.of_nat (length s).

(** ** JavaScript values

    The values that reach the server: what [JSON.parse] produces, plus
    [undefined]. An object is its list of own properties; the first
    binding of a name is the property's value. *)

#[local] Set Warnings "-register-all".

Inductive jsval : Type :=
  | JUndefined
  | JNull
  | JBool (b : bool)
  | JNum (q : Q)
  | JStr (s : jsstring)
  | JArr (xs : list jsval)
  | JObj (props : list (jsstring * jsval)).

Definition JInt (n : Z) : jsval := JNum (inject_Z n).

(** ToBoolean. *)
Definition truthy (v : jsval) : bool :=
  match v with
  | JUndefined | JNull => false
  | JBool b => b
  | JNum q => negb (Qnum q =? 0)
  | JStr s => negb (bool_decide (s = []))
  | JArr _ | JObj _ => true
  end.

(** [a || b] on values. *)
Definition js_or (a b : jsval) : jsval := if truthy a then a else b.

Inductive jstype := TUndefined | TObject | TBoolean | TNumber | TString.

#[export] Instance jstype_eq_dec : EqDecision jstype.
Proof. solve_decision. Defined.

Definition typeof (v : jsval) : jstype :=
  match v with
  | JUndefined => TUndefined
  | JNull | JArr _ | JObj _ => TObject
  | JBool _ => TBoolean
  | JNum _ => TNumber
  | JStr _ => TString
  end.

Definition Array_isArray (v : jsval) : bool :=
  match v with JArr _ => true | _ => false end.

Fixpoint assoc (props : list (jsstring * jsval)) (k : jsstring) : option jsval :=
  match props with
  | [] => None
  | (k', v) :: props' => if bool_decide (k' = k) then Some v else assoc props' k
  end.

(** A canonical array index: decimal digits without a leading zero. *)
Fixpoint digits_value (acc : nat) (k : jsstring) : option nat :=
  match k with
  | [] => Some acc
  | c :: k' =>
      if ((48 <=? c) && (c <=? 57))%N
      then digits_value (10 * acc + N.to_nat (c - 48))%nat k'
      else None
  end.

Definition index_of_key (k : jsstring) : option nat :=
  match k with
  | [] => None
  | [48%N] => Some 0%nat
  | 48%N :: _ => None
  | _ => digits_value 0 k
  end.

(** [v[k]] for a value [v] that is neither [null] nor [undefined]. Inherited
    members (functions of the prototypes) are not strings, arrays or
    objects of the payload; they read as [undefined] here, which the callers
    below treat the same way. *)
Definition get_member (v : jsval) (k : jsstring) : jsval :=
  match v with
  | JObj props => default JUndefined (assoc props k)
  | JArr xs =>
      if bool_decide (k = js "length") then JInt (Z.of_nat (length xs))
      else default JUndefined (i ← index_of_key k; xs !! i)
  | JStr s =>
      if bool_decide (k = js "length") then JInt (jslength s)
      else default JUndefined (i ← index_of_key k; c ← s !! i; Some (JStr [c]))
  | _ => JUndefined
  end.

Definition nullish (v : jsval) : bool :=
  match v with JUndefined | JNull => true | _ => false end.

(** [v?.[k]] *)
Definition opt_member (v : jsval) (k : jsstring) : jsval :=
  if nullish v then JUndefined else get_member v k.

(** ** Configuration

    The constants read from the environment when the module is loaded. The
    two passwords are kept as the environment gives them, the constants
    [APP_PASSWORD] and [PROF_PASSWORD] are their trimmed values. The numeric
    settings are integers (milliseconds, counts, lengths), and so is every
    reading [now] of the clock ([Date.now()], in milliseconds). *)

Record config := {
  OPENAI_API_KEY : option jsstring;
  env_APP_PASSWORD : option jsstring;
  env_PROF_PASSWORD : option jsstring;
  SESSION_TTL_MS : Z;
  RATE_LIMIT_WINDOW_MS : Z;
  RATE_LIMIT_MAX_REQUESTS : Z;
  MAX_CONTENT_LENGTH : Z;
  MAX_PODCAST_TEXT_LENGTH : Z;
  MAX_PASSWORD_LENGTH : Z;
}.

Definition APP_PASSWORD (cfg : config) : jsstring :=
  trim (default [] (env_APP_PASSWORD cfg)).

Definition PROF_PASSWORD (cfg : config) : jsstring :=
  trim (default [] (env_PROF_PASSWORD cfg)).

(** ** ApiError and thrown values *)

Record ApiError := {
  status : Z;
  code : jsstring;
  message : jsstring;
  details : jsval;
  requestId : jsval;
}.

(** [new ApiError(status, code, message)]: the two last arguments are left
    [undefined]. *)
Definition new_ApiError (status : Z) (code message : jsstring) : ApiError :=
  {| status := status; code := code; message := message;
     details := JUndefined; requestId := JUndefined |}.

(** What a [throw] (or a rejected promise) can carry. Only the class of the
    value is observed by the handlers ([instanceof]). *)
Inductive thrown :=
  | TApiError (e : ApiError)
  | TSyntaxError
  | TTypeError
  | TOther (v : jsval).

Inductive completion (A : Type) :=
  | Normal (a : A)
  | Throw (t : thrown).
Arguments Normal {A} a.
Arguments Throw {A} t.

(** Sequencing: a [throw] skips the rest of the [try] block. *)
#[export] Instance completion_bind : MBind completion := λ A B k c,
  match c with
  | Normal a => k a
  | Throw t => Throw t
  end.

Definition throw_ApiError {A} (e : ApiError) : completion A := Throw (TApiError e).

(** ** normalizeError and sendError *)

Record reply := {
  reply_status : Z;
  reply_headers : list (jsstring * jsstring);
  reply_body : jsval;
}.

Record normalized := {
  norm_status : Z;
  norm_body : jsval;
}.

Definition error_body (code message details requestId : jsval) : jsval :=
  JObj [(js "error",
         JObj [(js "code", code); (js "message", message);
               (js "details", details); (js "requestId", requestId)])].

Definition normalizeError (error : thrown) : normalized :=
  match error with
  | TApiError error =>
      {| norm_status := status error;
         norm_body :=
           error_body (JStr (code error)) (JStr (message error))
                      (js_or (details error) JNull)
                      (js_or (requestId error) JNull) |}
  | _ =>
      {| norm_status := 500;
         norm_body :=
           error_body (JStr (js "INTERNAL_ERROR"))
                      (JStr (js "Unexpected server error.")) JNull JNull |}
  end.

(** [res.status(...).json(...)] on a response whose headers so far are
    [headers]. *)
Definition sendError (headers : list (jsstring * jsstring)) (error : thrown) : reply :=
  let normalized := normalizeError error in
  {| reply_status := norm_status normalized;
     reply_headers := headers;
     reply_body := norm_body normalized |}.

(** [res.json(body)]: status 200. *)
Definition res_json (body : jsval) : reply :=
  {| reply_status := 200; reply_headers := []; reply_body := body |}.

Definition requireApiKey (cfg : config) : completion unit :=
  match OPENAI_API_KEY cfg with
  | Some key =>
      if bool_decide (key = []) then
        throw_ApiError (new_ApiError 500 (js "MISSING_API_KEY")
                          (js "Missing OPENAI_API_KEY on server."))
      else Normal tt
  | None =>
      throw_ApiError (new_ApiError 500 (js "MISSING_API_KEY")
                        (js "Missing OPENAI_API_KEY on server."))
  end.

Definition isAuthEnabled (cfg : config) : bool :=
  0 <? jslength (APP_PASSWORD cfg).

(** ** Requests *)

(** The parts of an incoming request the server reads. [req_ip] is
    [req.ip], [req_remoteAddress] is [req.socket?.remoteAddress],
    [req_authorization] is [req.headers.authorization], [req_body] is
    [req.body]. *)
Record request := {
  req_ip : option jsstring;
  req_remoteAddress : option jsstring;
  req_authorization : option jsstring;
  req_body : jsval;
}.

Definition nonempty (o : option jsstring) : option jsstring :=
  match o with
  | Some [] | None => None
  | Some s => Some s
  end.

Definition getClientIp (req : request) : jsstring :=
  match nonempty (req_ip req) with
  | Some ip => ip
  | None => default (js "unknown") (nonempty (req_remoteAddress req))
  end.

(** ** Server state

    [rateBuckets] maps a client address to a bucket object. A bucket is
    mutated in place ([current.count += 1]), so the map holds references:
    [bucket_heap] is the store of bucket objects, a reference is an index
    in it, and [rateBuckets.set(ip, {...})] allocates a new object at the
    end. Session objects are never mutated after their creation, so
    [authSessions] holds them by value. *)

Record RateBucket := {
  count : Z;
  resetAt : Z;
}.

Record Session := {
  expiresAt : Z;
  role : jsstring;
}.

Record state := {
  bucket_heap : list RateBucket;
  rateBuckets : gmap jsstring nat;
  authSessions : gmap jsstring Session;
}.

Definition init : state :=
  {| bucket_heap := []; rateBuckets := ∅; authSessions := ∅ |}.

(** [rateBuckets.get(ip)]: the reference and the object it points to. *)
Definition get_bucket (st : state) (ip : jsstring) : option (nat * RateBucket) :=
  ref ← rateBuckets st !! ip;
  current ← bucket_heap st !! ref;
  Some (ref, current).

(** [rateBuckets.set(ip, bucket)] with a new object literal. *)
Definition set_new_bucket (st : state) (ip : jsstring) (bucket : RateBucket) : state :=
  {| bucket_heap := bucket_heap st ++ [bucket];
     rateBuckets := <[ip := length (bucket_heap st)]> (rateBuckets st);
     authSessions := authSessions st |}.

(** An assignment to fields of the object behind [ref]. *)
Definition write_bucket (st : state) (ref : nat) (bucket : RateBucket) : state :=
  {| bucket_heap := <[ref := bucket]> (bucket_heap st);
     rateBuckets := rateBuckets st;
     authSessions := authSessions st |}.

(** ** Rate limiter *)

(** [Math.ceil(a / b)] for integers [a] and a positive integer [b]. *)
Definition ceil_div (a b : Z) : Z := - ((- a) / b).

(** What a middleware does: call [next()], call [next(error)], or answer. *)
Inductive middleware_result :=
  | Next
  | NextError (e : thrown)
  | Reply (r : reply).

Definition rate_limited_details (cfg : config) (retryAfterSeconds : Z) : jsval :=
  JObj [(js "retryAfterSeconds", JInt retryAfterSeconds);
        (js "windowMs", JInt (RATE_LIMIT_WINDOW_MS cfg));
        (js "maxRequests", JInt (RATE_LIMIT_MAX_REQUESTS cfg))].

Definition rate_limited_error (cfg : config) (retryAfterSeconds : Z) : ApiError :=
  {| status := 429;
     code := js "RATE_LIMITED";
     message := js "Too many requests. Please retry later.";
     details := rate_limited_details cfg retryAfterSeconds;
     requestId := JUndefined |}.

Definition rateLimitMiddleware (cfg : config) (req : request) (now : Z) (st : state)
  : state * middleware_result :=
  let ip := getClientIp req in
  let fresh :=
    (set_new_bucket st ip {| count := 1; resetAt := now + RATE_LIMIT_WINDOW_MS cfg |},
     Next) in
  match get_bucket st ip with
  | None => fresh
  | Some (ref, current) =>
      if resetAt current <=? now then fresh
      else if RATE_LIMIT_MAX_REQUESTS cfg <=? count current then
        let retryAfterSeconds := Z.max 1 (ceil_div (resetAt current - now) 1000) in
        (st,
         Reply (sendError [(js "Retry-After", js (pretty retryAfterSeconds))]
                  (TApiError (rate_limited_error cfg retryAfterSeconds))))
      else
        (write_bucket st ref
           {| count := count current + 1; resetAt := resetAt current |},
         Next)
  end.

(** ** The periodic sweep *)

Definition bucket_elapsed (heap : list RateBucket) (now : Z) (ref : nat) : bool :=
  match heap !! ref with
  | Some bucket => resetAt bucket <=? now
  | None => false
  end.

Definition sweep (now : Z) (st : state) : state :=
  {| bucket_heap := bucket_heap st;
     rateBuckets :=
       filter (λ entry, bucket_elapsed (bucket_heap st) now entry.2 = false)
              (rateBuckets st);
     authSessions :=
       filter (λ entry, (expiresAt entry.2 <=? now) = false) (authSessions st) |}.

(** ** Request validation *)

Definition readRequiredTextField (body : jsval) (fieldName : jsstring) (maxLength : Z)
  : completion jsstring :=
  if negb (truthy body) || negb (bool_decide (typeof body = TObject)) || Array_isArray body
  then throw_ApiError (new_ApiError 400 (js "INVALID_INPUT")
                         (js "Request body must be a JSON object."))
  else
    match get_member body fieldName with
    | JStr field =>
        let value := trim field in
        if bool_decide (value = []) then
          throw_ApiError (new_ApiError 400 (js "INVALID_INPUT")
                            (js "Field " ++ dquote ++ fieldName ++ dquote
                               ++ js " cannot be empty."))
        else if maxLength <? jslength value then
          throw_ApiError
            {| status := 400;
               code := js "INPUT_TOO_LARGE";
               message := js "Field " ++ dquote ++ fieldName ++ dquote
                            ++ js " exceeds maximum length.";
               details := JObj [(js "field", JStr fieldName);
                                (js "maxLength", JInt maxLength)];
               requestId := JUndefined |}
        else Normal value
    | _ =>
        throw_ApiError (new_ApiError 400 (js "INVALID_INPUT")
                          (js "Field " ++ dquote ++ fieldName ++ dquote
                             ++ js " must be a string."))
    end.

(** ** Session store *)

Definition hex_digit (d : N) : N := (if d <? 10 then 48 + d else 87 + d)%N.

(** [buffer.toString("hex")]: two lowercase digits per byte. *)
Definition toHex (bytes : list Byte.byte) : jsstring :=
  concat ((λ b, let n := Byte.to_N b in [hex_digit (n / 16); hex_digit (n mod 16)])
            <$> bytes).

(** [randomBytes] is the result of [crypto.randomBytes(32)], [now] the
    reading of [Date.now()]. *)
Definition createSessionToken (cfg : config) (role : jsstring)
    (randomBytes : list Byte.byte) (now : Z) (st : state) : jsstring * state :=
  let token := toHex randomBytes in
  (token,
   {| bucket_heap := bucket_heap st;
      rateBuckets := rateBuckets st;
      authSessions :=
        <[token := {| expiresAt := now + SESSION_TTL_MS cfg; role := role |}]>
          (authSessions st) |}).

Definition slice (s : jsstring) (start : nat) : jsstring := drop start s.

(** The result is [None] for [null]. *)
Definition getBearerToken (req : request) : option jsstring :=
  let authHeader := default [] (nonempty (req_authorization req)) in
  if negb (startsWith authHeader (js "Bearer ")) then None
  else
    let token := trim (slice authHeader (length (js "Bearer "))) in
    nonempty (Some token).

Definition delete_session (token : jsstring) (st : state) : state :=
  {| bucket_heap := bucket_heap st;
     rateBuckets := rateBuckets st;
     authSessions := delete token (authSessions st) |}.

Definition hasValidSession (token : option jsstring) (now : Z) (st : state)
  : bool * state :=
  match nonempty token with
  | None => (false, st)
  | Some token =>
      match authSessions st !! token with
      | None => (false, st)
      | Some session =>
          if expiresAt session <=? now
          then (false, delete_session token st)
          else (true, st)
      end
  end.

Definition getSessionRole (token : option jsstring) (st : state) : jsstring :=
  match nonempty token with
  | None => js "student"
  | Some token =>
      match authSessions st !! token with
      | None => js "student"
      | Some session =>
          if bool_decide (role session = []) then js "student" else role session
      end
  end.

Definition requireAuth (cfg : config) (req : request) (now : Z) (st : state)
  : state * middleware_result :=
  if negb (isAuthEnabled cfg) then (st, Next)
  else
    let token := getBearerToken req in
    let '(valid, st') := hasValidSession token now st in
    if negb valid then
      (st', NextError (TApiError
                         (new_ApiError 401 (js "UNAUTHORIZED")
                            (js "Mot de passe requis ou session expir" ++ [233%N]
                               ++ js "e."))))
    else (st', Next).

(** ** Upstream responses *)

(** What the server reads of a [fetch] response. [headers] is keyed by
    lower-case header names; [text] is the body, [None] when reading the
    body fails. *)
Module Response.
Record t := {
  status : Z;
  headers : list (jsstring * jsstring);
  text : option jsstring;
}.

Definition ok (response : t) : bool :=
  (200 <=? status response) && (status response <=? 299).

(** [response.headers.get(name)]: [null] when the header is absent. *)
Fixpoint lookup (hs : list (jsstring * jsstring)) (name : jsstring) : jsval :=
  match hs with
  | [] => JNull
  | (k, v) :: hs' => if bool_decide (k = name) then JStr v else lookup hs' name
  end.

Definition get (response : t) (name : jsstring) : jsval :=
  lookup (headers response) name.
End Response.

Section Upstream.

(** [JSON.parse] is the runtime's: it takes any value (converted to a
    string first) and returns the parsed value, or [None] when it throws
    a [SyntaxError]. *)
Variable JSON_parse : jsval → option jsval.

Variable cfg : config.

(** [await response.json().catch(() => null)] *)
Definition response_json (response : Response.t) : jsval :=
  match Response.text response with
  | Some body => default JNull (JSON_parse (JStr body))
  | None => JNull
  end.

(** [await response.text().catch(() => "")] *)
Definition response_text (response : Response.t) : jsstring :=
  default [] (Response.text response).

Definition upstreamMessage (response : Response.t) : jsval :=
  let contentType :=
    match Response.get response (js "content-type") with
    | JStr s => s
    | _ => []
    end in
  let parsed :=
    if includes contentType (js "application/json")
    then response_json response else JNull in
  let raw :=
    if includes contentType (js "application/json")
    then [] else response_text response in
  js_or (opt_member (opt_member parsed (js "error")) (js "message"))
        (js_or (JStr raw) (JStr (js "OpenAI request failed."))).

Definition upstream_error (status : Z) (code message : jsstring)
    (response : Response.t) : ApiError :=
  {| status := status; code := code; message := message;
     details := JObj [(js "upstreamMessage", upstreamMessage response)];
     requestId := Response.get response (js "x-request-id") |}.

Definition readOpenAiError (response : Response.t) : ApiError :=
  if Response.status response =? 429 then
    upstream_error 429 (js "UPSTREAM_RATE_LIMIT")
      (js "OpenAI rate limit reached. Retry later.") response
  else if (Response.status response =? 401) || (Response.status response =? 403) then
    upstream_error 502 (js "UPSTREAM_AUTH_ERROR")
      (js "Upstream authentication failed.") response
  else if 500 <=? Response.status response then
    upstream_error 502 (js "UPSTREAM_UNAVAILABLE")
      (js "OpenAI service is temporarily unavailable.") response
  else
    upstream_error 502 (js "UPSTREAM_ERROR") (js "OpenAI request failed.") response.

(** [fetched] is the outcome of the [fetch] call: a response, or the value
    it rejects with. *)
Definition openaiJson (fetched : completion Response.t) : completion jsval :=
  _ ← requireApiKey cfg;
  response ← fetched;
  if negb (Response.ok response) then throw_ApiError (readOpenAiError response)
  else
    let data := response_json response in
    if negb (truthy data) then
      throw_ApiError (new_ApiError 502 (js "UPSTREAM_INVALID_RESPONSE")
                        (js "OpenAI returned invalid JSON."))
    else Normal data.

(** ** Route handlers *)

Definition login_reply (token role : jsstring) : reply :=
  res_json (JObj [(js "token", JStr token); (js "role", JStr role);
                  (js "expiresInMs", JInt (SESSION_TTL_MS cfg))]).

Definition auth_not_configured : ApiError :=
  new_ApiError 500 (js "AUTH_NOT_CONFIGURED")
    (js "APP_PASSWORD n'est pas configur" ++ [233%N] ++ js " sur le serveur.").

(** POST /api/auth/login *)
Definition post_auth_login (req : request) (randomBytes : list Byte.byte)
    (now : Z) (st : state) : state * reply :=
  let attempt : completion (state * reply) :=
    if negb (isAuthEnabled cfg) then throw_ApiError auth_not_configured
    else
      password ← readRequiredTextField (req_body req) (js "password")
                   (MAX_PASSWORD_LENGTH cfg);
      if negb (bool_decide (password = APP_PASSWORD cfg)) then
        throw_ApiError (new_ApiError 401 (js "INVALID_CREDENTIALS")
                          (js "Mot de passe incorrect."))
      else
        let '(token, st') := createSessionToken cfg (js "student") randomBytes now st in
        Normal (st', login_reply token (js "student")) in
  match attempt with
  | Normal done => done
  | Throw error => (st, sendError [] error)
  end.

(** POST /api/auth/prof-login *)
Definition post_auth_prof_login (req : request) (randomBytes : list Byte.byte)
    (now : Z) (st : state) : state * reply :=
  let attempt : completion (state * reply) :=
    if negb (isAuthEnabled cfg) then throw_ApiError auth_not_configured
    else if bool_decide (PROF_PASSWORD cfg = []) then
      throw_ApiError
        (new_ApiError 500 (js "PROF_AUTH_NOT_CONFIGURED")
           (js "PROF_PASSWORD n'est pas configur" ++ [233%N] ++ js " sur le serveur."))
    else
      password ← readRequiredTextField (req_body req) (js "password")
                   (MAX_PASSWORD_LENGTH cfg);
      if negb (bool_decide (password = PROF_PASSWORD cfg)) then
        throw_ApiError (new_ApiError 401 (js "INVALID_CREDENTIALS")
                          (js "Mot de passe professeur incorrect."))
      else
        let '(token, st') := createSessionToken cfg (js "professor") randomBytes now st in
        Normal (st', login_reply token (js "professor")) in
  match attempt with
  | Normal done => done
  | Throw error => (st, sendError [] error)
  end.

(** GET /api/auth/status. [hasValidSession] is called twice, each call
    reads the clock: [now1] and [now2]. *)
Definition get_auth_status (req : request) (now1 now2 : Z) (st : state)
  : state * reply :=
  if negb (isAuthEnabled cfg) then
    (st, res_json (JObj [(js "authEnabled", JBool false);
                         (js "authenticated", JBool true)]))
  else
    let token := getBearerToken req in
    let '(authenticated, st1) := hasValidSession token now1 st in
    let '(valid, st2) := hasValidSession token now2 st1 in
    let role := if valid then getSessionRole token st2 else js "student" in
    (st2, res_json (JObj [(js "authEnabled", JBool true);
                          (js "authenticated", JBool authenticated);
                          (js "role", JStr role)])).

(** [parsed.flashcards]: reading a member of [null] throws a [TypeError]. *)
Definition member (v : jsval) (k : jsstring) : completion jsval :=
  if nullish v then Throw TTypeError else Normal (get_member v k).

Definition parse (text : jsval) : completion jsval :=
  match JSON_parse text with
  | Some v => Normal v
  | None => Throw TSyntaxError
  end.

(** [response?.choices?.[0]?.message?.content] *)
Definition first_choice_content (response : jsval) : jsval :=
  opt_member
    (opt_member (opt_member (opt_member response (js "choices")) (js "0"))
       (js "message"))
    (js "content").

(** POST /api/flashcards *)
Definition post_flashcards (req : request) (fetched : completion Response.t) : reply :=
  let attempt : completion reply :=
    content ← readRequiredTextField (req_body req) (js "content")
                (MAX_CONTENT_LENGTH cfg);
    response ← openaiJson fetched;
    let contentText := js_or (first_choice_content response) (JStr (js "{}")) in
    parsed ← parse contentText;
    field ← member parsed (js "flashcards");
    let flashcards := if Array_isArray field then field else JArr [] in
    Normal (res_json (JObj [(js "flashcards", flashcards)])) in
  match attempt with
  | Normal done => done
  | Throw TSyntaxError =>
      sendError [] (TApiError
                      (new_ApiError 502 (js "UPSTREAM_INVALID_RESPONSE")
                         (js "Invalid flashcards payload from OpenAI.")))
  | Throw error => sendError [] error
  end.

End Upstream.

(** ** The other routes and the middleware chain *)

(** [buffer.toString("base64")]: the standard alphabet, with padding. *)
Definition base64_char (n : N) : N :=
  (if n <? 26 then 65 + n
   else if n <? 52 then 97 + (n - 26)
   else if n <? 62 then 48 + (n - 52)
   else if n =? 62 then 43 else 47)%N.

Fixpoint toBase64 (bytes : list Byte.byte) : jsstring :=
  match bytes with
  | [] => []
  | [a] =>
      let a := Byte.to_N a in
      [base64_char (a / 4); base64_char ((a mod 4) * 16); 61; 61]%N
  | [a; b] =>
      let a := Byte.to_N a in
      let b := Byte.to_N b in
      [base64_char (a / 4); base64_char ((a mod 4) * 16 + b / 16);
       base64_char ((b mod 16) * 4); 61]%N
  | a :: b :: c :: rest =>
      let a := Byte.to_N a in
      let b := Byte.to_N b in
      let c := Byte.to_N c in
      [base64_char (a / 4); base64_char ((a mod 4) * 16 + b / 16);
       base64_char ((b mod 16) * 4 + c / 64); base64_char (c mod 64)]%N
        ++ toBase64 rest
  end.

(** [v?.trim()]: [undefined] for [null] and [undefined], the trimmed string
    for a string; every other value has no [trim] method and the call
    throws a [TypeError]. *)
Definition opt_trim (v : jsval) : completion jsval :=
  match v with
  | JUndefined | JNull => Normal JUndefined
  | JStr s => Normal (JStr (trim s))
  | _ => Throw TTypeError
  end.

Section Routes.

Variable JSON_parse : jsval → option jsval.

Variable cfg : config.

(** POST /api/summarize *)
Definition post_summarize (req : request) (fetched : completion Response.t) : reply :=
  let attempt : completion reply :=
    content ← readRequiredTextField (req_body req) (js "content")
                (MAX_CONTENT_LENGTH cfg);
    response ← openaiJson JSON_parse cfg fetched;
    trimmed ← opt_trim (first_choice_content response);
    let summary := js_or trimmed (JStr (js "Impossible de generer un resume.")) in
    Normal (res_json (JObj [(js "summary", summary)])) in
  match attempt with
  | Normal done => done
  | Throw error => sendError [] error
  end.

(** POST /api/podcast. [fetched] is the outcome of the [fetch] call and
    [arrayBuffer] the outcome of reading the body of its response as
    bytes. *)
Definition post_podcast (req : request) (fetched : completion Response.t)
    (arrayBuffer : completion (list Byte.byte)) : reply :=
  let attempt : completion reply :=
    _ ← requireApiKey cfg;
    text ← readRequiredTextField (req_body req) (js "text")
             (MAX_PODCAST_TEXT_LENGTH cfg);
    response ← fetched;
    if negb (Response.ok response) then
      throw_ApiError (readOpenAiError JSON_parse response)
    else
      buffer ← arrayBuffer;
      if bool_decide (buffer = []) then
        throw_ApiError (new_ApiError 502 (js "UPSTREAM_INVALID_RESPONSE")
                          (js "OpenAI returned empty audio."))
      else
        let audioDataUrl := js "data:audio/mp3;base64," ++ toBase64 buffer in
        Normal (res_json (JObj [(js "audioDataUrl", JStr audioDataUrl)])) in
  match attempt with
  | Normal done => done
  | Throw error => sendError [] error
  end.

(** GET /api/health *)
Definition get_health : reply :=
  res_json
    (JObj [(js "ok", JBool true);
           (js "authEnabled", JBool (isAuthEnabled cfg));
           (js "rateLimit",
            JObj [(js "windowMs", JInt (RATE_LIMIT_WINDOW_MS cfg));
                  (js "maxRequests", JInt (RATE_LIMIT_MAX_REQUESTS cfg))])]).






End Routes.

(** The request [req] with [Authorization: Bearer <token>]. *)
Definition with_bearer (token : jsstring) (req : request) : request :=
  {| req_ip := req_ip req;
     req_remoteAddress := req_remoteAddress req;
     req_authorization := Some (js "Bearer " ++ token);
     req_body := req_body req |}.

(** ** Runs of the rate limiter

    The events that touch the bucket store: a request under [/api] entering
    [rateLimitMiddleware] when the clock reads [now], and a firing of the
    sweep timer. *)

Inductive event :=
  | Request (req : request) (now : Z)
  | Tick (now : Z).

Definition step (cfg : config) (st : state) (ev : event)
  : state * option middleware_result :=
  match ev with
  | Request req now =>
      let '(st', result) := rateLimitMiddleware cfg req now st in (st', Some result)
  | Tick now => (sweep now st, None)
  end.

Fixpoint run (cfg : config) (st : state) (evs : list event) : state :=
  match evs with
  | [] => st
  | ev :: evs' => run cfg (step cfg st ev).1 evs'
  end.

Definition is_call_of (ip : jsstring) (ev : event) : bool :=
  match ev with
  | Request req _ => bool_decide (getClientIp req = ip)
  | Tick _ => false
  end.


Definition passed (result : option middleware_result) : bool :=
  match result with
  | Some Next => true
  | _ => false
  end.

(** The number of requests of client [ip] among [evs] that the limiter lets
    through ([next()]), when the events happen in this order from [st]. *)
Fixpoint allowed_calls (cfg : config) (ip : jsstring) (st : state) (evs : list event)
  : nat :=
  match evs with
  | [] => 0
  | ev :: evs' =>
      let '(st', result) := step cfg st ev in
      ((if is_call_of ip ev && passed result then 1 else 0)
       + allowed_calls cfg ip st' evs')%nat
  end.



(** References of the bucket map are valid and no two clients share a
    bucket object. *)
Definition wf (st : state) : Prop :=
  (∀ ip ref, rateBuckets st !! ip = Some ref → (ref < length (bucket_heap st))%nat) ∧
  (∀ ip1 ip2 ref,
      rateBuckets st !! ip1 = Some ref → rateBuckets st !! ip2 = Some ref → ip1 = ip2).

(** ** Concrete configurations and requests

    The defaults of the source for the numeric settings, with the two
    passwords and the upstream key set. *)

Definition default_config : config :=
  {| OPENAI_API_KEY := Some (js "sk-test");
     env_APP_PASSWORD := Some (js "secret");
     env_PROF_PASSWORD := Some (js "prof-secret");
     SESSION_TTL_MS := 12 * 60 * 60 * 1000;
     RATE_LIMIT_WINDOW_MS := 60000;
     RATE_LIMIT_MAX_REQUESTS := 30;
     MAX_CONTENT_LENGTH := 12000;
     MAX_PODCAST_TEXT_LENGTH := 8000;
     MAX_PASSWORD_LENGTH := 256 |}.

(** [RATE_LIMIT_MAX_REQUESTS=n] in the environment. *)
Definition with_max_requests (n : Z) (cfg : config) : config :=
  {| OPENAI_API_KEY := OPENAI_API_KEY cfg;
     env_APP_PASSWORD := env_APP_PASSWORD cfg;
     env_PROF_PASSWORD := env_PROF_PASSWORD cfg;
     SESSION_TTL_MS := SESSION_TTL_MS cfg;
     RATE_LIMIT_WINDOW_MS := RATE_LIMIT_WINDOW_MS cfg;
     RATE_LIMIT_MAX_REQUESTS := n;
     MAX_CONTENT_LENGTH := MAX_CONTENT_LENGTH cfg;
     MAX_PODCAST_TEXT_LENGTH := MAX_PODCAST_TEXT_LENGTH cfg;
     MAX_PASSWORD_LENGTH := MAX_PASSWORD_LENGTH cfg |}.

(** A request from address [ip] with JSON body [body] and no
    [Authorization] header. *)
Definition request_from (ip : string) (body : jsval) : request :=
  {| req_ip := Some (js ip); req_remoteAddress := None;
     req_authorization := None; req_body := body |}.

(** What [JSON.parse] answers on the texts of an example, as a table: the
    text on the left parses to the value on the right, every other argument
    is a [SyntaxError]. *)
Definition JSON_parse_table (table : list (jsstring * jsval)) (text : jsval)
  : option jsval :=
  match text with
  | JStr s => assoc table s
  | _ => None
  end.

(** An upstream 503 with a plain-text body and an [x-request-id] header
    whose value is empty. *)
Definition unavailable_response : Response.t :=
  {| Response.status := 503;
     Response.headers := [(js "content-type", js "text/plain");
                          (js "x-request-id", [])];
     Response.text := Some (js "upstream down") |}.

(** [APP_PASSWORD] and [PROF_PASSWORD] as the environment gives them. *)
Definition with_passwords (app prof : option jsstring) (cfg : config) : config :=
  {| OPENAI_API_KEY := OPENAI_API_KEY cfg;
     env_APP_PASSWORD := app;
     env_PROF_PASSWORD := prof;
     SESSION_TTL_MS := SESSION_TTL_MS cfg;
     RATE_LIMIT_WINDOW_MS := RATE_LIMIT_WINDOW_MS cfg;
     RATE_LIMIT_MAX_REQUESTS := RATE_LIMIT_MAX_REQUESTS cfg;
     MAX_CONTENT_LENGTH := MAX_CONTENT_LENGTH cfg;
     MAX_PODCAST_TEXT_LENGTH := MAX_PODCAST_TEXT_LENGTH cfg;
     MAX_PASSWORD_LENGTH := MAX_PASSWORD_LENGTH cfg |}.

(** A login request with [{password}] as its body. *)
Definition login_request (password : jsstring) : request :=
  request_from "10.0.0.1" (JObj [(js "password", JStr password)]).

(** The reply to a rejected password. *)
Definition invalid_credentials_reply (message : jsstring) : reply :=
  {| reply_status := 401;
     reply_headers := [];
     reply_body :=
       error_body (JStr (js "INVALID_CREDENTIALS")) (JStr message) JNull JNull |}.

(** The reply to an error that is not an [ApiError]. *)
Definition internal_error_reply : reply :=
  {| reply_status := 500;
     reply_headers := [];
     reply_body :=
       error_body (JStr (js "INTERNAL_ERROR")) (JStr (js "Unexpected server error."))
         JNull JNull |}.

Definition invalid_flashcards_reply : reply :=
  {| reply_status := 502;
     reply_headers := [];
     reply_body :=
       error_body (JStr (js "UPSTREAM_INVALID_RESPONSE"))
         (JStr (js "Invalid flashcards payload from OpenAI.")) JNull JNull |}.

Definition quoted (s : string) : jsstring := dquote ++ js s ++ dquote.

(** An upstream 200 whose completion has the four characters [null] as its
    message content, and the value its body parses to. *)
Definition null_content_text : jsstring :=
  js "{" ++ quoted "choices" ++ js ":[{" ++ quoted "message" ++ js ":{"
    ++ quoted "content" ++ js ":" ++ quoted "null" ++ js "}}]}".

Definition null_content_data : jsval :=
  JObj [(js "choices",
         JArr [JObj [(js "message", JObj [(js "content", JStr (js "null"))])]])].

Definition null_content_response : Response.t :=
  {| Response.status := 200;
     Response.headers := [(js "content-type", js "application/json")];
     Response.text := Some null_content_text |}.

Definition null_content_parse : jsval → option jsval :=
  JSON_parse_table [(null_content_text, null_content_data); (js "null", JNull)].


(** An upstream 200 whose first choice has a content with blanks around
    it, and the value its body parses to. *)
Definition summary_text : jsstring :=
  js "{" ++ quoted "choices" ++ js ":[{" ++ quoted "message" ++ js ":{"
    ++ quoted "content" ++ js ":" ++ quoted "  Cells divide.  " ++ js "}}]}".

Definition summary_data : jsval :=
  JObj [(js "choices",
         JArr [JObj [(js "message",
                      JObj [(js "content", JStr (js "  Cells divide.  "))])]])].

Definition summary_response : Response.t :=
  {| Response.status := 200;
     Response.headers := [(js "content-type", js "application/json")];
     Response.text := Some summary_text |}.

(** An upstream 429 with a JSON error body and a request id. *)
Definition busy_text : jsstring :=
  js "{" ++ quoted "error" ++ js ":{" ++ quoted "message" ++ js ":"
    ++ quoted "slow down" ++ js "}}".

Definition busy_data : jsval :=
  JObj [(js "error", JObj [(js "message", JStr (js "slow down"))])].

Definition busy_response : Response.t :=
  {| Response.status := 429;
     Response.headers := [(js "content-type", js "application/json");
                          (js "x-request-id", js "req_123")];
     Response.text := Some busy_text |}.

Definition example_parse : jsval → option jsval :=
  JSON_parse_table [(summary_text, summary_data); (busy_text, busy_data)].

(** A request with [{content}] as its body. *)
Definition content_request (content : string) : request :=
  request_from "10.0.0.1" (JObj [(js "content", JStr (js content))]).

(** [OPENAI_API_KEY] unset. *)
Definition without_api_key (cfg : config) : config :=
  {| OPENAI_API_KEY := None;
     env_APP_PASSWORD := env_APP_PASSWORD cfg;
     env_PROF_PASSWORD := env_PROF_PASSWORD cfg;
     SESSION_TTL_MS := SESSION_TTL_MS cfg;
     RATE_LIMIT_WINDOW_MS := RATE_LIMIT_WINDOW_MS cfg;
     RATE_LIMIT_MAX_REQUESTS := RATE_LIMIT_MAX_REQUESTS cfg;
     MAX_CONTENT_LENGTH := MAX_CONTENT_LENGTH cfg;
     MAX_PODCAST_TEXT_LENGTH := MAX_PODCAST_TEXT_LENGTH cfg;
     MAX_PASSWORD_LENGTH := MAX_PASSWORD_LENGTH cfg |}.


(** A JSON text as it stands inside a JSON string: every double quote gets
    a backslash. *)
Definition escaped (s : jsstring) : jsstring :=
  s ≫= λ c, if (c =? 34)%N then [92%N; 34%N] else [c].

(** An upstream 200 whose first choice holds one flashcard, the value its
    body parses to, and the value the content parses to. *)
Definition cards_content : jsstring :=
  js "{" ++ quoted "flashcards" ++ js ":[{" ++ quoted "id" ++ js ":" ++ quoted "1"
    ++ js "," ++ quoted "question" ++ js ":" ++ quoted "What divides?"
    ++ js "," ++ quoted "answer" ++ js ":" ++ quoted "Cells." ++ js "}]}".

Definition cards_parsed : jsval :=
  JObj [(js "flashcards",
         JArr [JObj [(js "id", JStr (js "1"));
                     (js "question", JStr (js "What divides?"));
                     (js "answer", JStr (js "Cells."))]])].

Definition cards_text : jsstring :=
  js "{" ++ quoted "choices" ++ js ":[{" ++ quoted "message" ++ js ":{"
    ++ quoted "content" ++ js ":" ++ dquote ++ escaped cards_content ++ dquote
    ++ js "}}]}".

Definition cards_data : jsval :=
  JObj [(js "choices",
         JArr [JObj [(js "message", JObj [(js "content", JStr cards_content)])]])].

Definition cards_response : Response.t :=
  {| Response.status := 200;
     Response.headers := [(js "content-type", js "application/json")];
     Response.text := Some cards_text |}.

Definition cards_parse : jsval → option jsval :=
  JSON_parse_table [(cards_text, cards_data); (cards_content, cards_parsed)].

(** The clock reading of an event. *)
Definition event_time (ev : event) : Z :=
  match ev with
  | Request _ now => now
  | Tick now => now
  end.



(** * Theorems *)

(** ** Integer ceiling *)

Lemma ceil_div_spec a b :
  0 < b → b * (ceil_div a b - 1) < a ≤ b * ceil_div a b.
Proof.
  intros Hb. unfold ceil_div.
  pose proof (Z.div_mod (- a) b ltac:(lia)) as Hdm.
  pose proof (Z.mod_pos_bound (- a) b Hb) as Hm.
  nia.
Qed.

Lemma ceil_div_pos a b : 0 < b → 0 < a → 0 < ceil_div a b.
Proof.
  intros Hb Ha. pose proof (ceil_div_spec a b Hb). nia.
Qed.

(** ** Well-formedness of the bucket store *)

Lemma wf_init : wf init.
Proof. split; intros *; cbn; by rewrite lookup_empty. Qed.

Lemma wf_set_new_bucket st ip bucket : wf st → wf (set_new_bucket st ip bucket).
Proof.
  intros [Hval Hinj]. split; cbn.
  - intros ip' ref. rewrite length_app. cbn.
    destruct (decide (ip = ip')) as [->|Hne].
    + rewrite lookup_insert_eq. intros [= <-]. lia.
    + rewrite lookup_insert_ne by done. intros H%Hval. lia.
  - intros ip1 ip2 ref.
    destruct (decide (ip = ip1)) as [<-|Hne1], (decide (ip = ip2)) as [<-|Hne2];
      rewrite ?lookup_insert_eq, ?lookup_insert_ne by done; try done.
    + intros [= <-] H%Hval. lia.
    + intros H%Hval [= <-]. lia.
    + apply Hinj.
Qed.

Lemma wf_write_bucket st ref bucket : wf st → wf (write_bucket st ref bucket).
Proof.
  intros [Hval Hinj]. split; cbn.
  - intros ip' ref'. rewrite length_insert. apply Hval.
  - apply Hinj.
Qed.

Lemma wf_sweep now st : wf st → wf (sweep now st).
Proof.
  intros [Hval Hinj]. split; cbn.
  - intros ip ref [H _]%map_lookup_filter_Some. by eapply Hval.
  - intros ip1 ip2 ref [H1 _]%map_lookup_filter_Some [H2 _]%map_lookup_filter_Some.
    by eapply Hinj.
Qed.

Lemma wf_rateLimitMiddleware cfg req now st :
  wf st → wf (rateLimitMiddleware cfg req now st).1.
Proof.
  intros Hwf. unfold rateLimitMiddleware.
  destruct (get_bucket st (getClientIp req)) as [[ref current]|]; cbn.
  - repeat case_match; cbn; auto using wf_set_new_bucket, wf_write_bucket.
  - by apply wf_set_new_bucket.
Qed.

(** The session operations do not touch the bucket store. *)
Lemma wf_createSessionToken cfg granted randomBytes now st :
  wf st → wf (createSessionToken cfg granted randomBytes now st).2.
Proof. by intros [Hval Hinj]. Qed.

Lemma wf_hasValidSession token now st : wf st → wf (hasValidSession token now st).2.
Proof.
  intros Hwf. unfold hasValidSession. by repeat case_match.
Qed.

Lemma wf_step cfg st ev : wf st → wf (step cfg st ev).1.
Proof.
  intros Hwf. destruct ev as [req now|now]; cbn.
  - pose proof (wf_rateLimitMiddleware cfg req now st Hwf).
    by destruct (rateLimitMiddleware cfg req now st).
  - by apply wf_sweep.
Qed.

Lemma wf_run cfg evs : ∀ st, wf st → wf (run cfg st evs).
Proof.
  induction evs as [|ev evs IH]; intros st Hwf; cbn; [done|].
  apply IH. by apply wf_step.
Qed.

(** ** The branches of [rateLimitMiddleware] *)

Lemma get_bucket_Some st ip ref current :
  get_bucket st ip = Some (ref, current) ↔
  rateBuckets st !! ip = Some ref ∧ bucket_heap st !! ref = Some current.
Proof.
  unfold get_bucket. split.
  - destruct (rateBuckets st !! ip) as [ref'|]; cbn; [|done].
    destruct (bucket_heap st !! ref') as [b|] eqn:Hb; cbn; [|done].
    intros [= <- <-]. by rewrite Hb.
  - intros [-> Hb]. cbn. by rewrite Hb.
Qed.


Lemma rateLimit_deny cfg req now st ref current :
  get_bucket st (getClientIp req) = Some (ref, current) →
  now < resetAt current →
  RATE_LIMIT_MAX_REQUESTS cfg ≤ count current →
  rateLimitMiddleware cfg req now st =
    (st,
     Reply (sendError
              [(js "Retry-After", js (pretty (ceil_div (resetAt current - now) 1000)))]
              (TApiError
                 (rate_limited_error cfg (ceil_div (resetAt current - now) 1000))))).
Proof.
  intros Hget Hnow Hmax. unfold rateLimitMiddleware. rewrite Hget.
  rewrite (proj2 (Z.leb_gt _ _) Hnow), (proj2 (Z.leb_le _ _) Hmax).
  pose proof (ceil_div_pos (resetAt current - now) 1000 ltac:(lia) ltac:(lia)).
  by rewrite Z.max_r by lia.
Qed.


(** A request of another client leaves the bucket of [ip] alone. *)
Lemma rateLimit_other cfg req now st ip ref bucket :
  wf st →
  getClientIp req ≠ ip →
  rateBuckets st !! ip = Some ref →
  bucket_heap st !! ref = Some bucket →
  let st' := (rateLimitMiddleware cfg req now st).1 in
  rateBuckets st' !! ip = Some ref ∧ bucket_heap st' !! ref = Some bucket.
Proof.
  intros [Hval Hinj] Hne Hip Hb. unfold rateLimitMiddleware.
  assert (Hfresh : ∀ b',
    let st' := set_new_bucket st (getClientIp req) b' in
    rateBuckets st' !! ip = Some ref ∧ bucket_heap st' !! ref = Some bucket).
  { intros b'. cbn. rewrite lookup_insert_ne by done. split; [done|].
    rewrite lookup_app_l; [done|]. by eapply Hval. }
  destruct (get_bucket st (getClientIp req)) as [[ref' current]|] eqn:Hget;
    [|apply Hfresh].
  apply get_bucket_Some in Hget as [Hip' Hb'].
  repeat case_match; cbn; try apply Hfresh; try done.
  split; [done|].
  rewrite list_lookup_insert_ne; [done|].
  intros ->. apply Hne. by eapply Hinj.
Qed.


(** ** Counting inside one window *)



(** ** The fixed window (C2) *)





(** ** The bucket invariant (C9) and the frame of a denial (C10) *)



(** C10: a denied request leaves the whole state as it was: the object of
    the client (count and resetAt), the map, and so every other client's
    bucket; any run of denied requests of that client does, too. *)
Theorem denied_request_changes_nothing cfg req now st ref current :
  get_bucket st (getClientIp req) = Some (ref, current) →
  now < resetAt current →
  RATE_LIMIT_MAX_REQUESTS cfg ≤ count current →
  (∃ r, rateLimitMiddleware cfg req now st = (st, Reply r) ∧ reply_status r = 429) ∧
  (∀ ip, get_bucket (rateLimitMiddleware cfg req now st).1 ip = get_bucket st ip) ∧
  (∀ evs,
     Forall (λ ev, ∃ req' now', ev = Request req' now' ∧
                     getClientIp req' = getClientIp req ∧ now' < resetAt current) evs →
     run cfg st evs = st).
Proof.
  intros Hget Hnow Hmax.
  pose proof (rateLimit_deny cfg req now st ref current Hget Hnow Hmax) as Hdeny.
  split_and!.
  - eexists. split; [exact Hdeny|done].
  - intros ip. by rewrite Hdeny.
  - intros evs Hevs. induction Hevs as [|ev evs (req' & now' & -> & Hreq' & Hnow') _ IH];
      [done|].
    cbn [run step]. rewrite <- Hreq' in Hget.
    by rewrite (rateLimit_deny cfg req' now' st ref current Hget Hnow' Hmax).
Qed.

Lemma denied_request_changes_nothing_witness :
  let cfg := with_max_requests 1 default_config in
  let req := request_from "10.0.0.1" JUndefined in
  let st := (rateLimitMiddleware cfg req 0 init).1 in
  ∃ r, rateLimitMiddleware cfg req 500 st = (st, Reply r) ∧ reply_status r = 429.
Proof.
  cbn zeta.
  apply (denied_request_changes_nothing (with_max_requests 1 default_config)
           (request_from "10.0.0.1" JUndefined) 500 _ 0%nat
           {| count := 1; resetAt := 60000 |}).
  - reflexivity.
  - cbn. lia.
  - cbn. lia.
Defined.

(** ** Sessions (C1, C4) *)

Lemma nonempty_Some o s : nonempty o = Some s ↔ o = Some s ∧ s ≠ [].
Proof.
  destruct o as [[|c o]|]; cbn.
  - split; [done|]. by intros [[= <-] ?].
  - split; [by intros [= <-]|]. by intros [? _].
  - split; [done|]. by intros [? _].
Qed.

Lemma nonempty_None o : nonempty o = None ↔ o = None ∨ o = Some [].
Proof.
  destruct o as [[|c o]|]; cbn.
  - split; [by right|done].
  - split; [done|]. by intros [|].
  - split; [by left|done].
Qed.

(** C1: [hasValidSession] answers [false] for an empty token ([null] or
    the empty string), for a token that is not in the store, and for a token
    whose session has [expiresAt <= now] at the clock reading of the call,
    in any state of the store, swept or not. *)
Theorem hasValidSession_false token now st :
  (token = None ∨ token = Some []) ∨
  (∃ t, token = Some t ∧ authSessions st !! t = None) ∨
  (∃ t session,
     token = Some t ∧ authSessions st !! t = Some session ∧ expiresAt session ≤ now) →
  (hasValidSession token now st).1 = false.
Proof.
  unfold hasValidSession.
  destruct (nonempty token) as [t|] eqn:Htoken; [|done].
  apply nonempty_Some in Htoken as [-> Ht].
  intros [[|]|[(t' & [= <-] & ->)|(t' & session & [= <-] & -> & Hexp)]];
    [done|congruence|done|].
  by rewrite (proj2 (Z.leb_le _ _) Hexp).
Qed.

(** A professor session created at clock reading 0 with the default
    lifetime of 12 hours, looked up one hour after its expiry; no sweep and
    no other lookup happened in between. *)
Lemma hasValidSession_false_witness :
  (hasValidSession (Some (toHex (repeat Byte.x2a 32))) (13 * 60 * 60 * 1000)
     (createSessionToken default_config (js "professor")
        (repeat Byte.x2a 32) 0 init).2).1 = false.
Proof.
  apply hasValidSession_false. right. right.
  exists (toHex (repeat Byte.x2a 32)),
    {| expiresAt := 12 * 60 * 60 * 1000; role := js "professor" |}.
  split_and!; [reflexivity|apply lookup_insert_eq|by vm_compute].
Defined.


(** [getSessionRole] reads the store and not the clock. *)
Lemma getSessionRole_stored t session st :
  t ≠ [] → authSessions st !! t = Some session → role session ≠ [] →
  getSessionRole (Some t) st = role session.
Proof.
  intros Ht Hs Hrole. unfold getSessionRole.
  rewrite (proj2 (nonempty_Some (Some t) t)) by done.
  rewrite Hs. by rewrite bool_decide_eq_false_2.
Qed.

(** C4, as the code has it: [getSessionRole] returns the stored role of
    every token that is in the store, expired or not, and "student" for an
    empty or unknown token (and for a stored role that is empty). The
    expression of the status route, [hasValidSession(token) ?
    getSessionRole(token) : "student"], is the stored role when the session
    is valid at the clock reading, and "student" otherwise. *)
Theorem getSessionRole_spec token now st :
  ((token = None ∨ token = Some [] ∨
    ∃ t, token = Some t ∧ authSessions st !! t = None) →
   getSessionRole token st = js "student") ∧
  (∀ t session,
     token = Some t → t ≠ [] → authSessions st !! t = Some session →
     getSessionRole token st =
       if bool_decide (role session = []) then js "student" else role session) ∧
  (let '(valid, st') := hasValidSession token now st in
   (if valid then getSessionRole token st' else js "student") =
   match token with
   | Some t =>
       match authSessions st !! t with
       | Some session =>
           if bool_decide (t ≠ [] ∧ now < expiresAt session ∧ role session ≠ [])
           then role session else js "student"
       | None => js "student"
       end
   | None => js "student"
   end).
Proof.
  split_and!.
  - unfold getSessionRole.
    intros [->|[->|(t & -> & Hs)]]; [done..|].
    destruct (nonempty (Some t)) as [t'|] eqn:Ht; [|done].
    apply nonempty_Some in Ht as [[= <-] _]. by rewrite Hs.
  - intros t session -> Ht Hs. unfold getSessionRole.
    rewrite (proj2 (nonempty_Some (Some t) t)) by done. by rewrite Hs.
  - unfold hasValidSession, getSessionRole.
    destruct token as [[|c t]|]; cbn [nonempty]; [|
      |done].
    { destruct (authSessions st !! []); [|done].
      rewrite bool_decide_eq_false_2; [done|]. by intros [? _]. }
    destruct (authSessions st !! (c :: t)) as [session|] eqn:Hs; [|done].
    destruct (Z.leb_spec (expiresAt session) now) as [Hexp|Hexp].
    + rewrite bool_decide_eq_false_2; [done|]. intros (_ & ? & _). lia.
    + cbn [nonempty]. rewrite Hs.
      destruct (decide (role session = [])) as [Hr|Hr].
      * rewrite (bool_decide_eq_true_2 _ Hr).
        rewrite bool_decide_eq_false_2; [done|]. by intros (_ & _ & ?).
      * rewrite (bool_decide_eq_false_2 _ Hr).
        by rewrite bool_decide_eq_true_2.
Qed.

Lemma getSessionRole_spec_witness :
  getSessionRole (Some (js "no-such-token")) init = js "student".
Proof.
  apply (proj1 (getSessionRole_spec (Some (js "no-such-token")) 0 init)).
  right. right. exists (js "no-such-token"). split; reflexivity.
Defined.

(** The professor session of the witness of C1, one hour after its expiry
    and not swept: it is not valid, and [getSessionRole] still answers
    "professor". *)
Lemma getSessionRole_expired_counterexample :
  let '(token, st) :=
    createSessionToken default_config (js "professor")
      (repeat Byte.x2a 32) 0 init in
  let now := 13 * 60 * 60 * 1000 in
  (hasValidSession (Some token) now st).1 = false ∧
  getSessionRole (Some token) st = js "professor" ∧
  getSessionRole (Some token) st ≠ js "student".
Proof. by vm_compute. Qed.

(** ** Validation (C5) *)

(** The guard of [readRequiredTextField] lets objects through and nothing
    else. *)
Lemma body_guard body :
  negb (truthy body) || negb (bool_decide (typeof body = TObject)) || Array_isArray body
  = match body with JObj _ => false | _ => true end.
Proof.
  destruct body as [| |[]|q|s|xs|props]; cbn; by rewrite ?orb_true_r.
Qed.

(** C5: [readRequiredTextField] throws a 400 [INVALID_INPUT] when the body
    is not an object (a primitive, [null], [undefined], an array), when the
    field is missing or not a string, and when its value trims to the empty
    string; it throws a 400 [INPUT_TOO_LARGE] with details
    [{field, maxLength}] when the trimmed value is longer than [maxLength];
    otherwise it returns the trimmed value. *)
Theorem readRequiredTextField_spec body fieldName maxLength :
  let result := readRequiredTextField body fieldName maxLength in
  let invalid_input :=
    ∃ message,
      result = Throw (TApiError (new_ApiError 400 (js "INVALID_INPUT") message)) in
  ((∀ props, body ≠ JObj props) → invalid_input) ∧
  (∀ props,
     body = JObj props →
     ((∀ s, assoc props fieldName ≠ Some (JStr s)) → invalid_input) ∧
     (∀ s,
        assoc props fieldName = Some (JStr s) →
        (trim s = [] → invalid_input) ∧
        (trim s ≠ [] → maxLength < jslength (trim s) →
         ∃ message,
           result =
             Throw (TApiError
                      {| status := 400;
                         code := js "INPUT_TOO_LARGE";
                         message := message;
                         details := JObj [(js "field", JStr fieldName);
                                          (js "maxLength", JInt maxLength)];
                         requestId := JUndefined |})) ∧
        (trim s ≠ [] → jslength (trim s) ≤ maxLength → result = Normal (trim s)))).
Proof.
  cbn zeta. unfold readRequiredTextField. rewrite body_guard. split.
  - intros Hbody. destruct body; try by eexists. by destruct (Hbody props).
  - intros props ->. cbn [get_member]. split.
    + intros Hfield.
      destruct (assoc props fieldName) as [[| | | |s| |]|]; cbn;
        try by eexists.
      by destruct (Hfield s).
    + intros s ->. cbn [from_option id]. split_and!.
      * intros ->. by eexists.
      * intros Hne Hlong. rewrite bool_decide_eq_false_2 by done.
        rewrite (proj2 (Z.ltb_lt _ _) Hlong). by eexists.
      * intros Hne Hshort. rewrite bool_decide_eq_false_2 by done.
        by rewrite (proj2 (Z.ltb_ge _ _) Hshort).
Qed.

Example readRequiredTextField_trims :
  readRequiredTextField (JObj [(js "content", JStr (js "  photosynthesis  "))])
    (js "content") 12000 = Normal (js "photosynthesis").
Proof. reflexivity. Qed.

Example readRequiredTextField_array :
  readRequiredTextField (JArr [JStr (js "content")]) (js "content") 12000 =
  Throw (TApiError (new_ApiError 400 (js "INVALID_INPUT")
                      (js "Request body must be a JSON object."))).
Proof. reflexivity. Qed.

(** ** The error normalizer (C6) *)

(** C6, as the code has it: [normalizeError] gives every thrown value the
    shape [{status, body: {error: {code, message, details, requestId}}}];
    an [ApiError] keeps its status, code and message, and its details and
    requestId when they are truthy, while a missing or otherwise falsy
    details or requestId becomes [null]; every other value becomes status
    500, [INTERNAL_ERROR], the generic message and [null] twice. *)
Theorem normalizeError_spec error :
  (∃ status code message details requestId,
     normalizeError error =
       {| norm_status := status;
          norm_body := error_body (JStr code) (JStr message) details requestId |}) ∧
  (∀ e,
     error = TApiError e →
     normalizeError error =
       {| norm_status := status e;
          norm_body :=
            error_body (JStr (code e)) (JStr (message e))
              (if truthy (details e) then details e else JNull)
              (if truthy (requestId e) then requestId e else JNull) |}) ∧
  ((∀ e, error ≠ TApiError e) →
   normalizeError error =
     {| norm_status := 500;
        norm_body :=
          error_body (JStr (js "INTERNAL_ERROR"))
            (JStr (js "Unexpected server error.")) JNull JNull |}).
Proof.
  split_and!.
  - destruct error; cbn; by repeat eexists.
  - by intros e ->.
  - intros Hother. destruct error as [e| | |v]; try done. by destruct (Hother e).
Qed.

(** An [ApiError] built by [readOpenAiError] from a response whose
    [x-request-id] header is empty has the empty string as its requestId;
    [normalizeError] reports [null], not the error's own requestId. *)
Lemma normalizeError_not_verbatim_counterexample :
  let e := readOpenAiError (JSON_parse_table []) unavailable_response in
  requestId e = JStr [] ∧
  normalizeError (TApiError e) =
    {| norm_status := 502;
       norm_body :=
         error_body (JStr (js "UPSTREAM_UNAVAILABLE"))
           (JStr (js "OpenAI service is temporarily unavailable."))
           (JObj [(js "upstreamMessage", JStr (js "upstream down"))]) JNull |} ∧
  normalizeError (TApiError e) ≠
    {| norm_status := status e;
       norm_body :=
         error_body (JStr (code e)) (JStr (message e)) (details e) (requestId e) |}.
Proof. split_and!; [reflexivity..|]. by vm_compute. Qed.

(** ** Classification of upstream failures (C7) *)



(** ** Login round trip (C3) *)

Lemma toHex_nonempty bytes : bytes ≠ [] → toHex bytes ≠ [].
Proof. by destruct bytes. Qed.

Lemma toHex_length bytes : length (toHex bytes) = (2 * length bytes)%nat.
Proof.
  unfold toHex. induction bytes as [|b bytes IH]; [done|].
  cbn [fmap list_fmap concat]. rewrite length_app, IH. cbn. lia.
Qed.

(** A session that was just created is valid until its expiry, with the
    role it was created with. *)
Lemma createSessionToken_valid cfg granted randomBytes now st later :
  randomBytes ≠ [] → granted ≠ [] →
  later < now + SESSION_TTL_MS cfg →
  let st' := (createSessionToken cfg granted randomBytes now st).2 in
  hasValidSession (Some (toHex randomBytes)) later st' = (true, st') ∧
  getSessionRole (Some (toHex randomBytes)) st' = granted.
Proof.
  intros Hbytes Hgranted Hlater. cbn zeta.
  pose proof (toHex_nonempty _ Hbytes) as Htoken.
  unfold hasValidSession, getSessionRole.
  rewrite (proj2 (nonempty_Some (Some (toHex randomBytes)) _)) by done.
  cbn [createSessionToken snd authSessions]. rewrite lookup_insert_eq.
  cbn [expiresAt role]. rewrite (proj2 (Z.leb_gt _ _) Hlater).
  by rewrite bool_decide_eq_false_2.
Qed.

(** What the validator throws is an [ApiError] with status 400. *)
Lemma readRequiredTextField_throws body fieldName maxLength error :
  readRequiredTextField body fieldName maxLength = Throw error →
  ∃ e, error = TApiError e ∧ status e = 400 ∧
       (code e = js "INVALID_INPUT" ∨ code e = js "INPUT_TOO_LARGE").
Proof.
  unfold readRequiredTextField.
  repeat case_match; intros [= <-]; eexists; (split; [done|]); split; auto.
Qed.


(** C3, as the code has it. With authentication configured, let the
    submitted password be what the validator returns for the [password]
    field of the body (the trimmed field, non-empty and at most
    [MAX_PASSWORD_LENGTH] long). If it equals the base password, the login
    route answers [{token, role: "student", expiresInMs}], and the token is
    valid at every clock reading before [now + SESSION_TTL_MS], with role
    "student"; with the elevated password configured too, the professor
    route does the same with role "professor". If it differs, the route
    answers 401 [INVALID_CREDENTIALS] and the state is unchanged. If the
    validator throws, the route answers that error, a 400, and the state is
    unchanged. *)
Theorem login_round_trip cfg req randomBytes now st :
  isAuthEnabled cfg = true →
  length randomBytes = 32%nat →
  let token := toHex randomBytes in
  let submitted :=
    readRequiredTextField (req_body req) (js "password") (MAX_PASSWORD_LENGTH cfg) in
  let issued granted (outcome : state * reply) :=
    let st' := (createSessionToken cfg granted randomBytes now st).2 in
    outcome = (st', login_reply cfg token granted) ∧
    getSessionRole (Some token) st' = granted ∧
    ∀ later, later < now + SESSION_TTL_MS cfg →
             hasValidSession (Some token) later st' = (true, st') in
  (∀ password,
     submitted = Normal password →
     (password = APP_PASSWORD cfg →
      issued (js "student") (post_auth_login cfg req randomBytes now st)) ∧
     (password ≠ APP_PASSWORD cfg →
      post_auth_login cfg req randomBytes now st =
        (st, invalid_credentials_reply (js "Mot de passe incorrect."))) ∧
     (PROF_PASSWORD cfg ≠ [] → password = PROF_PASSWORD cfg →
      issued (js "professor") (post_auth_prof_login cfg req randomBytes now st)) ∧
     (PROF_PASSWORD cfg ≠ [] → password ≠ PROF_PASSWORD cfg →
      post_auth_prof_login cfg req randomBytes now st =
        (st, invalid_credentials_reply (js "Mot de passe professeur incorrect.")))) ∧
  (∀ error,
     submitted = Throw error →
     post_auth_login cfg req randomBytes now st = (st, sendError [] error) ∧
     (PROF_PASSWORD cfg ≠ [] →
      post_auth_prof_login cfg req randomBytes now st = (st, sendError [] error)) ∧
     reply_status (sendError [] error) = 400).
Proof.
  intros Hauth Hlen. cbn zeta.
  assert (Hbytes : randomBytes ≠ []) by by destruct randomBytes.
  assert (Hissued : ∀ granted, granted ≠ [] →
    let st' := (createSessionToken cfg granted randomBytes now st).2 in
    getSessionRole (Some (toHex randomBytes)) st' = granted ∧
    ∀ later, later < now + SESSION_TTL_MS cfg →
             hasValidSession (Some (toHex randomBytes)) later st' = (true, st')).
  { intros granted Hgranted. cbn zeta. split.
    - unfold getSessionRole.
      rewrite (proj2 (nonempty_Some (Some (toHex randomBytes)) _))
        by (split; [done|by apply toHex_nonempty]).
      cbn [createSessionToken snd authSessions]. rewrite lookup_insert_eq.
      by rewrite bool_decide_eq_false_2.
    - intros later Hlater.
      by apply (createSessionToken_valid cfg granted randomBytes now st later). }
  split.
  - intros password Hsubmitted. unfold post_auth_login, post_auth_prof_login.
    rewrite Hauth, Hsubmitted. cbn [negb mbind completion_bind].
    split_and!.
    + intros ->. rewrite bool_decide_eq_true_2 by done. cbn [negb].
      split; [done|]. by apply Hissued.
    + intros Hwrong. by rewrite bool_decide_eq_false_2.
    + intros Hprof ->. rewrite (bool_decide_eq_false_2 _ Hprof).
      rewrite bool_decide_eq_true_2 by done. cbn [negb].
      split; [done|]. by apply Hissued.
    + intros Hprof Hwrong. rewrite (bool_decide_eq_false_2 _ Hprof).
      by rewrite bool_decide_eq_false_2.
  - intros error Hsubmitted. unfold post_auth_login, post_auth_prof_login.
    rewrite Hauth, Hsubmitted. cbn [negb mbind completion_bind].
    split_and!; [done| |].
    + intros Hprof. by rewrite (bool_decide_eq_false_2 _ Hprof).
    + by apply readRequiredTextField_throws in Hsubmitted as (e & -> & He & _).
Qed.

(** A login with the base password surrounded by blanks. *)
Lemma login_round_trip_witness :
  let req := login_request (js " secret ") in
  let st' :=
    (createSessionToken default_config (js "student") (repeat Byte.x2a 32) 0 init).2 in
  post_auth_login default_config req (repeat Byte.x2a 32) 0 init =
    (st', login_reply default_config (toHex (repeat Byte.x2a 32)) (js "student")) ∧
  getSessionRole (Some (toHex (repeat Byte.x2a 32))) st' = js "student" ∧
  ∀ later, later < 0 + SESSION_TTL_MS default_config →
           hasValidSession (Some (toHex (repeat Byte.x2a 32))) later st' = (true, st').
Proof.
  cbn zeta.
  destruct (login_round_trip default_config (login_request (js " secret "))
              (repeat Byte.x2a 32) 0 init eq_refl eq_refl) as [Hsubmitted _].
  destruct (Hsubmitted (js "secret") eq_refl) as [Hbase _].
  exact (Hbase eq_refl).
Defined.

(** Three logins on which the round trip does not go as C3 is worded.
    A wrong password of blanks is answered 400 [INVALID_INPUT], not 401. A
    base password of 257 characters is never accepted under the default
    [MAX_PASSWORD_LENGTH] of 256: the correct password is answered 400
    [INPUT_TOO_LARGE] and no session is created. With no base password set,
    the professor route answers 500 [AUTH_NOT_CONFIGURED] to the correct
    elevated password. *)
Lemma login_round_trip_counterexample :
  let bytes := repeat Byte.x2a 32 in
  (js "   " ≠ APP_PASSWORD default_config ∧
   post_auth_login default_config (login_request (js "   ")) bytes 0 init =
     (init,
      {| reply_status := 400;
         reply_headers := [];
         reply_body :=
           error_body (JStr (js "INVALID_INPUT"))
             (JStr (js "Field " ++ dquote ++ js "password" ++ dquote
                      ++ js " cannot be empty."))
             JNull JNull |})) ∧
  (let long := repeat 97%N 257 in
   let cfg := with_passwords (Some long) (Some (js "prof-secret")) default_config in
   long = APP_PASSWORD cfg ∧
   (post_auth_login cfg (login_request long) bytes 0 init).1 = init ∧
   reply_status (post_auth_login cfg (login_request long) bytes 0 init).2 = 400 ∧
   get_member
     (get_member (reply_body (post_auth_login cfg (login_request long) bytes 0 init).2)
        (js "error"))
     (js "code") = JStr (js "INPUT_TOO_LARGE")) ∧
  (let cfg := with_passwords None (Some (js "prof-secret")) default_config in
   js "prof-secret" = PROF_PASSWORD cfg ∧
   (post_auth_prof_login cfg (login_request (js "prof-secret")) bytes 0 init).1 = init ∧
   reply_status
     (post_auth_prof_login cfg (login_request (js "prof-secret")) bytes 0 init).2 = 500 ∧
   get_member
     (get_member
        (reply_body
           (post_auth_prof_login cfg (login_request (js "prof-secret")) bytes 0 init).2)
        (js "error"))
     (js "code") = JStr (js "AUTH_NOT_CONFIGURED")).
Proof. cbn zeta. split_and!; by vm_compute. Qed.

(** ** The flashcards payload (C8) *)

(** The handler up to the point where the upstream completion is at hand. *)
Lemma post_flashcards_received JSON_parse cfg req response content data :
  readRequiredTextField (req_body req) (js "content") (MAX_CONTENT_LENGTH cfg)
    = Normal content →
  requireApiKey cfg = Normal tt →
  Response.ok response = true →
  response_json JSON_parse response = data →
  truthy data = true →
  post_flashcards JSON_parse cfg req (Normal response) =
    match
      parsed ← parse JSON_parse (js_or (first_choice_content data) (JStr (js "{}")));
      field ← member parsed (js "flashcards");
      Normal (res_json (JObj [(js "flashcards",
                               if Array_isArray field then field else JArr [])]))
    with
    | Normal done => done
    | Throw TSyntaxError => invalid_flashcards_reply
    | Throw error => sendError [] error
    end.
Proof.
  intros Hcontent Hkey Hok Hdata Htruthy. unfold post_flashcards, openaiJson.
  rewrite Hcontent, Hkey. cbn [mbind completion_bind].
  rewrite Hok, Hdata, Htruthy. cbn [negb mbind completion_bind].
  by destruct (parse JSON_parse _) as [parsed|[]].
Qed.

(** What holds of C8: a content that does not parse is answered 502
    [UPSTREAM_INVALID_RESPONSE]; a content that parses to a value other than
    [null] is answered with its [flashcards] array, or with the empty list
    when that member is missing or not an array. *)
Lemma post_flashcards_payload JSON_parse cfg req response content data :
  readRequiredTextField (req_body req) (js "content") (MAX_CONTENT_LENGTH cfg)
    = Normal content →
  requireApiKey cfg = Normal tt →
  Response.ok response = true →
  response_json JSON_parse response = data →
  truthy data = true →
  let contentText := js_or (first_choice_content data) (JStr (js "{}")) in
  (JSON_parse contentText = None →
   post_flashcards JSON_parse cfg req (Normal response) = invalid_flashcards_reply) ∧
  (∀ parsed,
     JSON_parse contentText = Some parsed → nullish parsed = false →
     (Array_isArray (get_member parsed (js "flashcards")) = false →
      post_flashcards JSON_parse cfg req (Normal response) =
        res_json (JObj [(js "flashcards", JArr [])])) ∧
     (∀ cards, get_member parsed (js "flashcards") = JArr cards →
      post_flashcards JSON_parse cfg req (Normal response) =
        res_json (JObj [(js "flashcards", JArr cards)]))).
Proof.
  intros Hcontent Hkey Hok Hdata Htruthy. cbn zeta.
  rewrite (post_flashcards_received _ _ _ _ _ _ Hcontent Hkey Hok Hdata Htruthy).
  unfold parse, member. split.
  - by intros ->.
  - intros parsed -> Hparsed. cbn [mbind completion_bind]. rewrite Hparsed.
    cbn [mbind completion_bind]. split.
    + by intros ->.
    + by intros cards ->.
Qed.

(** C8 at the failing input: when the content of the upstream message
    parses to [null], reading [parsed.flashcards] throws a [TypeError], which
    is not a [SyntaxError]: the handler answers 500 [INTERNAL_ERROR], neither
    the empty list nor 502 [UPSTREAM_INVALID_RESPONSE]. *)
Theorem post_flashcards_null_payload JSON_parse cfg req response content data :
  readRequiredTextField (req_body req) (js "content") (MAX_CONTENT_LENGTH cfg)
    = Normal content →
  requireApiKey cfg = Normal tt →
  Response.ok response = true →
  response_json JSON_parse response = data →
  truthy data = true →
  JSON_parse (js_or (first_choice_content data) (JStr (js "{}"))) = Some JNull →
  post_flashcards JSON_parse cfg req (Normal response) = internal_error_reply ∧
  post_flashcards JSON_parse cfg req (Normal response) ≠
    res_json (JObj [(js "flashcards", JArr [])]).
Proof.
  intros Hcontent Hkey Hok Hdata Htruthy Hnull.
  rewrite (post_flashcards_received _ _ _ _ _ _ Hcontent Hkey Hok Hdata Htruthy).
  unfold parse. rewrite Hnull. by cbn.
Qed.

Lemma post_flashcards_null_payload_witness :
  post_flashcards null_content_parse default_config
    (request_from "10.0.0.1" (JObj [(js "content", JStr (js "cells"))]))
    (Normal null_content_response) = internal_error_reply.
Proof.
  apply (post_flashcards_null_payload null_content_parse default_config
           (request_from "10.0.0.1" (JObj [(js "content", JStr (js "cells"))]))
           null_content_response (js "cells") null_content_data);
    reflexivity.
Defined.

(** ** Instances *)

Lemma readRequiredTextField_spec_witness :
  readRequiredTextField (JObj [(js "content", JStr (js "  cells  "))])
    (js "content") 12000 = Normal (js "cells").
Proof.
  destruct (readRequiredTextField_spec
              (JObj [(js "content", JStr (js "  cells  "))]) (js "content") 12000)
    as [_ Hobject].
  destruct (Hobject _ eq_refl) as [_ Hstring].
  destruct (Hstring (js "  cells  ") eq_refl) as (_ & _ & Hvalue).
  apply Hvalue; by vm_compute.
Defined.

Lemma normalizeError_spec_witness :
  normalizeError (TApiError (new_ApiError 401 (js "UNAUTHORIZED") (js "no session"))) =
  {| norm_status := 401;
     norm_body :=
       error_body (JStr (js "UNAUTHORIZED")) (JStr (js "no session")) JNull JNull |}.
Proof.
  exact (proj1 (proj2 (normalizeError_spec _))
           (new_ApiError 401 (js "UNAUTHORIZED") (js "no session")) eq_refl).
Defined.


(** The scenario of 31 calls in a row from one address under the default
    cap of 30: the first 30 pass, the 31st is answered 429 [RATE_LIMITED]. *)
Example thirty_first_call_denied :
  let req := request_from "10.0.0.1" JUndefined in
  let calls := repeat (Request req 1000) 30 in
  allowed_calls default_config (js "10.0.0.1") init calls = 30%nat ∧
  ∃ r,
    (rateLimitMiddleware default_config req 1000 (run default_config init calls)).2
      = Reply r ∧
    reply_status r = 429 ∧
    get_member (get_member (reply_body r) (js "error")) (js "code")
      = JStr (js "RATE_LIMITED") ∧
    get_member
      (get_member (get_member (reply_body r) (js "error")) (js "details"))
      (js "retryAfterSeconds") = JInt 60.
Proof. cbn zeta. split; [by vm_compute|]. eexists. by vm_compute. Qed.

(** * More of the server *)

Example toBase64_vectors :
  toBase64 [Byte.x4d; Byte.x61; Byte.x6e] = js "TWFu" ∧
  toBase64 [Byte.x4d; Byte.x61] = js "TWE=" ∧
  toBase64 [Byte.x4d] = js "TQ==" ∧
  toBase64 [Byte.xff; Byte.xfe; Byte.x00; Byte.x3e] = js "//4APg==".
Proof. by vm_compute. Qed.

(** ** Facts about [trim] *)

Lemma trimStart_split s :
  ∃ blanks, s = blanks ++ trimStart s ∧ Forall (λ c, isWhiteSpace c = true) blanks.
Proof.
  induction s as [|c s (blanks & Hs & Hblanks)]; [by exists []|].
  cbn. destruct (isWhiteSpace c) eqn:Hc.
  - exists (c :: blanks). split; [by rewrite Hs at 1|by constructor].
  - by exists [].
Qed.

Lemma trimStart_head s c rest : trimStart s = c :: rest → isWhiteSpace c = false.
Proof.
  induction s as [|c' s IH]; [done|]. cbn.
  destruct (isWhiteSpace c') eqn:Hc'; [done|]. by intros [= <- _].
Qed.

(** A string that does not begin with a blank is its own [trimStart]. *)
Lemma trimStart_clean s :
  (∀ c rest, s = c :: rest → isWhiteSpace c = false) → trimStart s = s.
Proof.
  destruct s as [|c s]; [done|]. intros Hhead. cbn.
  by rewrite (Hhead c s eq_refl).
Qed.

Lemma trimStart_nil s :
  trimStart s = [] ↔ Forall (λ c, isWhiteSpace c = true) s.
Proof.
  induction s as [|c s IH]; [done|]. cbn.
  destruct (isWhiteSpace c) eqn:Hc.
  - rewrite IH. split; [by constructor|by intros [_ ?]%Forall_cons].
  - split; [done|]. intros [? _]%Forall_cons. congruence.
Qed.

Lemma trim_nil s : trim s = [] ↔ Forall (λ c, isWhiteSpace c = true) s.
Proof.
  unfold trim, trimEnd. split.
  - intros Hnil. apply (f_equal (@rev N)) in Hnil. rewrite rev_involutive in Hnil.
    cbn in Hnil. apply trimStart_nil in Hnil.
    apply Forall_rev in Hnil. rewrite rev_involutive in Hnil.
    destruct (trimStart s) as [|c rest] eqn:Hstart; [by apply trimStart_nil|].
    apply trimStart_head in Hstart. apply Forall_cons in Hnil as [? _]. congruence.
  - intros Hblank. rewrite (proj2 (trimStart_nil s) Hblank). done.
Qed.

(** The result of [trim] neither begins nor ends with a blank, so trimming
    it again changes nothing. *)
Lemma trim_trim s : trim (trim s) = trim s.
Proof.
  unfold trim, trimEnd.
  set (a := trimStart s). set (b := trimStart (rev a)).
  destruct (trimStart_split (rev a)) as (blanks & Hrev & _). fold b in Hrev.
  assert (Ha : a = rev b ++ rev blanks).
  { by rewrite <- rev_app_distr, <- Hrev, rev_involutive. }
  assert (Hclean : trimStart (rev b) = rev b).
  { apply trimStart_clean. intros c rest Hb.
    rewrite Hb in Ha. by apply (trimStart_head s c (rest ++ rev blanks)). }
  rewrite Hclean, rev_involutive. f_equal.
  apply trimStart_clean. intros c rest Hb. by apply (trimStart_head (rev a) c rest).
Qed.

(** A string without blanks is its own [trim]. *)
Lemma trim_no_blank s : Forall (λ c, isWhiteSpace c = false) s → trim s = s.
Proof.
  intros Hs. unfold trim, trimEnd.
  assert (Hclean : ∀ l, Forall (λ c, isWhiteSpace c = false) l → trimStart l = l).
  { intros l Hl. apply trimStart_clean. intros c rest ->.
    by apply Forall_cons in Hl as [? _]. }
  rewrite (Hclean s Hs), (Hclean (rev s)) by by apply Forall_rev.
  apply rev_involutive.
Qed.

Lemma startsWith_app s prefix :
  startsWith s prefix = true ↔ ∃ rest, s = prefix ++ rest.
Proof.
  revert s. induction prefix as [|p prefix IH]; intros s.
  - destruct s; cbn; split; eauto.
  - destruct s as [|c s]; cbn.
    + split; [done|]. by intros [rest ?].
    + rewrite andb_true_iff, N.eqb_eq, IH. split.
      * intros [-> [rest ->]]. by exists rest.
      * intros [rest [= -> ->]]. split; [done|by exists rest].
Qed.

(** ** The sweep and the lookups *)

Lemma sessions_sweep now st t :
  authSessions (sweep now st) !! t =
  match authSessions st !! t with
  | Some session => if expiresAt session <=? now then None else Some session
  | None => None
  end.
Proof.
  cbn. destruct (authSessions st !! t) as [session|] eqn:Hs.
  - destruct (expiresAt session <=? now) eqn:Hexp.
    + apply map_lookup_filter_None. right. intros session' Hs'. cbn.
      rewrite Hs in Hs'. injection Hs' as <-. congruence.
    + apply map_lookup_filter_Some. by split.
  - apply map_lookup_filter_None. by left.
Qed.

Lemma get_bucket_sweep now st ip :
  get_bucket (sweep now st) ip =
  match get_bucket st ip with
  | Some (ref, current) =>
      if resetAt current <=? now then None else Some (ref, current)
  | None => None
  end.
Proof.
  unfold get_bucket. cbn [sweep rateBuckets bucket_heap].
  destruct (rateBuckets st !! ip) as [ref|] eqn:Hip; cbn.
  - destruct (bucket_heap st !! ref) as [current|] eqn:Hb; cbn.
    + destruct (resetAt current <=? now) eqn:Hexp.
      * rewrite (proj2 (map_lookup_filter_None _ _ _)); [done|].
        right. intros ref' Href. rewrite Hip in Href. injection Href as <-.
        cbn. unfold bucket_elapsed. rewrite Hb. congruence.
      * rewrite (proj2 (map_lookup_filter_Some _ _ _ ref)); [by cbn; rewrite Hb|].
        split; [done|]. cbn. unfold bucket_elapsed. by rewrite Hb.
    + destruct (filter _ (rateBuckets st) !! ip) as [ref'|] eqn:Hf; [|done].
      apply map_lookup_filter_Some in Hf as [Hf _]. rewrite Hip in Hf.
      injection Hf as <-. cbn. by rewrite Hb.
  - rewrite (proj2 (map_lookup_filter_None _ _ _)); [done|]. by left.
Qed.

(** X1. With a clock that does not run backwards, a sweep never changes
    the answer of [hasValidSession]: what the sweep removes is what the
    lookup would have refused. *)
Theorem sweep_keeps_session_verdict now later token st :
  now ≤ later →
  (hasValidSession token later (sweep now st)).1 = (hasValidSession token later st).1.
Proof.
  intros Hclock. unfold hasValidSession.
  destruct (nonempty token) as [t|]; [|done].
  rewrite sessions_sweep.
  destruct (authSessions st !! t) as [session|]; [|done].
  destruct (Z.leb_spec (expiresAt session) now) as [Hexp|Hexp];
    [|by destruct (expiresAt session <=? later)].
  by rewrite (proj2 (Z.leb_le (expiresAt session) later)) by lia.
Qed.

Lemma sweep_keeps_session_verdict_witness :
  (hasValidSession (Some (toHex (repeat Byte.x2a 32))) (13 * 60 * 60 * 1000)
     (sweep (12 * 60 * 60 * 1000)
        (createSessionToken default_config (js "student")
           (repeat Byte.x2a 32) 0 init).2)).1 =
  (hasValidSession (Some (toHex (repeat Byte.x2a 32))) (13 * 60 * 60 * 1000)
     (createSessionToken default_config (js "student")
        (repeat Byte.x2a 32) 0 init).2).1.
Proof. apply sweep_keeps_session_verdict. lia. Defined.

Lemma get_bucket_set_new st ip bucket :
  get_bucket (set_new_bucket st ip bucket) ip = Some (length (bucket_heap st), bucket).
Proof.
  unfold get_bucket. cbn. rewrite lookup_insert_eq. cbn.
  by rewrite lookup_app_r, Nat.sub_diag by lia.
Qed.

Lemma get_bucket_write st ip ref current bucket :
  get_bucket st ip = Some (ref, current) →
  get_bucket (write_bucket st ref bucket) ip = Some (ref, bucket).
Proof.
  intros [Hip Hb]%get_bucket_Some. unfold get_bucket. cbn. rewrite Hip. cbn.
  rewrite list_lookup_insert_eq; [done|]. by eapply lookup_lt_Some.
Qed.

(** X2. With a clock that does not run backwards, a sweep never changes
    what the rate limiter decides for a request, nor the bucket the client
    has afterwards. *)
Theorem sweep_keeps_rate_decision cfg req now later st :
  now ≤ later →
  (rateLimitMiddleware cfg req later (sweep now st)).2 =
    (rateLimitMiddleware cfg req later st).2 ∧
  get_bucket (rateLimitMiddleware cfg req later (sweep now st)).1 (getClientIp req) =
    get_bucket (rateLimitMiddleware cfg req later st).1 (getClientIp req).
Proof.
  intros Hclock. unfold rateLimitMiddleware. rewrite get_bucket_sweep.
  destruct (get_bucket st (getClientIp req)) as [[ref current]|] eqn:Hget.
  - destruct (Z.leb_spec (resetAt current) now) as [Hexp|Hexp].
    + rewrite (proj2 (Z.leb_le (resetAt current) later)) by lia.
      cbn [fst snd]. by rewrite !get_bucket_set_new.
    + destruct (resetAt current <=? later); cbn [fst snd].
      { by rewrite !get_bucket_set_new. }
      destruct (RATE_LIMIT_MAX_REQUESTS cfg <=? count current); cbn [fst snd].
      * split; [done|]. rewrite get_bucket_sweep, Hget.
        by rewrite (proj2 (Z.leb_gt _ _) Hexp).
      * split; [done|]. rewrite (get_bucket_write st _ _ _ _ Hget).
        apply (get_bucket_write (sweep now st) _ _ current).
        rewrite get_bucket_sweep, Hget. by rewrite (proj2 (Z.leb_gt _ _) Hexp).
  - cbn [fst snd]. by rewrite !get_bucket_set_new.
Qed.

Lemma sweep_keeps_rate_decision_witness :
  (rateLimitMiddleware default_config (request_from "10.0.0.1" JUndefined) 61000
     (sweep 60000
        (rateLimitMiddleware default_config
           (request_from "10.0.0.1" JUndefined) 0 init).1)).2 =
  (rateLimitMiddleware default_config (request_from "10.0.0.1" JUndefined) 61000
     (rateLimitMiddleware default_config
        (request_from "10.0.0.1" JUndefined) 0 init).1).2.
Proof. apply sweep_keeps_rate_decision. lia. Defined.

(** X3. [hasValidSession] never touches the buckets; when it answers
    [true] the state is unchanged; the only session it can remove is the
    one of the token it was asked about, and only if that session has
    expired. *)
Theorem hasValidSession_evicts_only_expired token now st :
  bucket_heap (hasValidSession token now st).2 = bucket_heap st ∧
  rateBuckets (hasValidSession token now st).2 = rateBuckets st ∧
  ((hasValidSession token now st).1 = true → (hasValidSession token now st).2 = st) ∧
  ∀ t,
    authSessions (hasValidSession token now st).2 !! t =
    match authSessions st !! t with
    | Some session =>
        if bool_decide (token = Some t ∧ t ≠ [] ∧ expiresAt session ≤ now)
        then None else Some session
    | None => None
    end.
Proof.
  unfold hasValidSession.
  destruct (nonempty token) as [t0|] eqn:Htoken.
  - apply nonempty_Some in Htoken as [-> Ht0].
    destruct (authSessions st !! t0) as [session0|] eqn:Hs0.
    + destruct (Z.leb_spec (expiresAt session0) now) as [Hexp|Hexp]; cbn [fst snd].
      * split_and!; [done..|]. intros t. cbn.
        destruct (decide (t0 = t)) as [<-|Hne].
        -- rewrite lookup_delete_eq, Hs0. by rewrite bool_decide_eq_true_2.
        -- rewrite lookup_delete_ne by done.
           destruct (authSessions st !! t); [|done].
           rewrite bool_decide_eq_false_2; [done|]. intros ([= ?] & _). done.
      * split_and!; [done..|]. intros t.
        destruct (authSessions st !! t) as [session|] eqn:Hs; [|done].
        rewrite bool_decide_eq_false_2; [done|].
        intros ([= <-] & _ & Hle). rewrite Hs0 in Hs. injection Hs as <-. lia.
    + cbn [fst snd]. split_and!; [done..|]. intros t.
      destruct (authSessions st !! t) as [session|] eqn:Hs; [|done].
      rewrite bool_decide_eq_false_2; [done|]. intros ([= <-] & _). congruence.
  - cbn [fst snd]. split_and!; [done..|]. intros t.
    destruct (authSessions st !! t) as [session|]; [|done].
    rewrite bool_decide_eq_false_2; [done|]. intros (-> & Ht & _).
    apply nonempty_None in Htoken as [|[= ->]]; done.
Qed.

(** ** Invariants of the bucket store *)

Lemma count_bound_step cfg st ev :
  (∀ ref bucket, bucket_heap st !! ref = Some bucket →
     1 ≤ count bucket ≤ Z.max 1 (RATE_LIMIT_MAX_REQUESTS cfg)) →
  ∀ ref bucket, bucket_heap (step cfg st ev).1 !! ref = Some bucket →
    1 ≤ count bucket ≤ Z.max 1 (RATE_LIMIT_MAX_REQUESTS cfg).
Proof.
  intros Hbound ref bucket. destruct ev as [req now|now]; cbn [step].
  - unfold rateLimitMiddleware.
    assert (Hfresh : ∀ b,
      count b = 1 →
      bucket_heap (set_new_bucket st (getClientIp req) b) !! ref = Some bucket →
      1 ≤ count bucket ≤ Z.max 1 (RATE_LIMIT_MAX_REQUESTS cfg)).
    { intros b Hb. cbn. intros [[_ H]|[_ <-]]%lookup_snoc_Some; [by eapply Hbound|lia]. }
    destruct (get_bucket st (getClientIp req)) as [[ref' current]|] eqn:Hget;
      [|by apply Hfresh].
    apply get_bucket_Some in Hget as [_ Hcurrent].
    destruct (resetAt current <=? now); [by apply Hfresh|].
    destruct (Z.leb_spec (RATE_LIMIT_MAX_REQUESTS cfg) (count current)) as [Hmax|Hmax];
      cbn [fst]; [apply Hbound|].
    cbn. destruct (decide (ref' = ref)) as [->|Hne].
    + rewrite list_lookup_insert_eq by by eapply lookup_lt_Some.
      intros [= <-]. cbn. specialize (Hbound _ _ Hcurrent). lia.
    + rewrite list_lookup_insert_ne by done. apply Hbound.
  - apply Hbound.
Qed.

(** X4. For a cap that is an integer, as the configuration holds it: in
    every state the server reaches from its start through requests and
    sweeps, no two clients share a bucket object, every reference of the
    bucket map points to an object, and every bucket's count is at least 1
    and at most the cap (at most 1 under a cap below 1). *)
Theorem reachable_buckets_invariant cfg evs :
  wf (run cfg init evs) ∧
  ∀ ip ref bucket,
    get_bucket (run cfg init evs) ip = Some (ref, bucket) →
    1 ≤ count bucket ≤ Z.max 1 (RATE_LIMIT_MAX_REQUESTS cfg).
Proof.
  split; [apply wf_run, wf_init|].
  assert (Hheap : ∀ st,
    (∀ ref bucket, bucket_heap st !! ref = Some bucket →
       1 ≤ count bucket ≤ Z.max 1 (RATE_LIMIT_MAX_REQUESTS cfg)) →
    ∀ ref bucket, bucket_heap (run cfg st evs) !! ref = Some bucket →
      1 ≤ count bucket ≤ Z.max 1 (RATE_LIMIT_MAX_REQUESTS cfg)).
  { induction evs as [|ev evs IH]; intros st Hst; [done|].
    cbn [run]. apply IH. by apply count_bound_step. }
  intros ip ref bucket [_ Hb]%get_bucket_Some.
  by apply (Hheap init) in Hb.
Qed.

Lemma get_bucket_other cfg reqA nowA st ip :
  wf st → getClientIp reqA ≠ ip →
  get_bucket (rateLimitMiddleware cfg reqA nowA st).1 ip = get_bucket st ip.
Proof.
  intros Hwf Hne.
  destruct (get_bucket st ip) as [[ref bucket]|] eqn:Hget.
  - apply get_bucket_Some in Hget as [Hip Hb].
    apply get_bucket_Some. by apply rateLimit_other.
  - pose proof (wf_rateLimitMiddleware cfg reqA nowA st Hwf) as Hwf'.
    destruct (get_bucket (rateLimitMiddleware cfg reqA nowA st).1 ip)
      as [[ref bucket]|] eqn:Hget'; [|done].
    apply get_bucket_Some in Hget' as [Hip' _].
    assert (Hip : rateBuckets st !! ip = Some ref).
    { revert Hip'. unfold rateLimitMiddleware.
      repeat case_match; cbn; by rewrite ?lookup_insert_ne. }
    destruct Hwf as [Hval _]. pose proof (Hval _ _ Hip) as Hlt.
    apply lookup_lt_is_Some in Hlt as [bucket' Hb'].
    by rewrite (proj2 (get_bucket_Some st ip ref bucket')) in Hget.
Qed.

(** X5. Clients are rate limited independently: what the limiter decides
    for a request of one client, and the count and reset time of that
    client's bucket afterwards, are the same whether or not a request of
    another client was handled just before. *)
Theorem clients_do_not_interfere cfg reqA nowA reqB nowB st :
  wf st →
  getClientIp reqA ≠ getClientIp reqB →
  (rateLimitMiddleware cfg reqB nowB (rateLimitMiddleware cfg reqA nowA st).1).2 =
    (rateLimitMiddleware cfg reqB nowB st).2 ∧
  snd <$> get_bucket
    (rateLimitMiddleware cfg reqB nowB (rateLimitMiddleware cfg reqA nowA st).1).1
    (getClientIp reqB) =
  snd <$> get_bucket (rateLimitMiddleware cfg reqB nowB st).1 (getClientIp reqB).
Proof.
  intros Hwf Hne.
  pose proof (get_bucket_other cfg reqA nowA st (getClientIp reqB) Hwf Hne) as Hsame.
  set (stA := (rateLimitMiddleware cfg reqA nowA st).1) in *.
  unfold rateLimitMiddleware. rewrite Hsame.
  destruct (get_bucket st (getClientIp reqB)) as [[ref current]|] eqn:Hget;
    [|cbn [fst snd]; by rewrite !get_bucket_set_new].
  destruct (resetAt current <=? nowB);
    [cbn [fst snd]; by rewrite !get_bucket_set_new|].
  destruct (RATE_LIMIT_MAX_REQUESTS cfg <=? count current); cbn [fst snd].
  - by rewrite Hsame, Hget.
  - split; [done|].
    by rewrite (get_bucket_write stA _ _ _ _ Hsame), (get_bucket_write st _ _ _ _ Hget).
Qed.

Lemma clients_do_not_interfere_witness :
  (rateLimitMiddleware default_config (request_from "10.0.0.2" JUndefined) 5
     (rateLimitMiddleware default_config
        (request_from "10.0.0.1" JUndefined) 0 init).1).2 =
  (rateLimitMiddleware default_config (request_from "10.0.0.2" JUndefined) 5 init).2.
Proof.
  apply (clients_do_not_interfere default_config
           (request_from "10.0.0.1" JUndefined) 0
           (request_from "10.0.0.2" JUndefined) 5 init);
    [apply wf_init|by vm_compute].
Defined.

(** ** Tokens *)

Lemma hex_digit_range d :
  (d < 16)%N → (48 ≤ hex_digit d ≤ 57 ∨ 97 ≤ hex_digit d ≤ 102)%N.
Proof. intros Hd. unfold hex_digit. destruct (N.ltb_spec d 10); lia. Qed.

Lemma hex_digit_inj d d' :
  (d < 16)%N → (d' < 16)%N → hex_digit d = hex_digit d' → d = d'.
Proof.
  intros Hd Hd'. unfold hex_digit.
  destruct (N.ltb_spec d 10), (N.ltb_spec d' 10); lia.
Qed.

Lemma hex_not_blank c :
  (48 ≤ c ≤ 57 ∨ 97 ≤ c ≤ 102)%N → isWhiteSpace c = false.
Proof.
  intros Hc. unfold isWhiteSpace.
  replace (c <=? 13)%N with false by (symmetry; apply N.leb_gt; lia).
  replace (c =? 32)%N with false by (symmetry; apply N.eqb_neq; lia).
  replace (c =? 160)%N with false by (symmetry; apply N.eqb_neq; lia).
  replace (c =? 5760)%N with false by (symmetry; apply N.eqb_neq; lia).
  replace (8192 <=? c)%N with false by (symmetry; apply N.leb_gt; lia).
  replace (c =? 8232)%N with false by (symmetry; apply N.eqb_neq; lia).
  replace (c =? 8233)%N with false by (symmetry; apply N.eqb_neq; lia).
  replace (c =? 8239)%N with false by (symmetry; apply N.eqb_neq; lia).
  replace (c =? 8287)%N with false by (symmetry; apply N.eqb_neq; lia).
  replace (c =? 12288)%N with false by (symmetry; apply N.eqb_neq; lia).
  replace (c =? 65279)%N with false by (symmetry; apply N.eqb_neq; lia).
  by rewrite andb_false_r.
Qed.

Lemma byte_nibbles b :
  (Byte.to_N b / 16 < 16)%N ∧ (Byte.to_N b mod 16 < 16)%N.
Proof.
  pose proof (Byte.to_N_bounded b). split.
  - apply N.Div0.div_lt_upper_bound. lia.
  - by apply N.mod_lt.
Qed.

Lemma toHex_cons b bytes :
  toHex (b :: bytes) =
    hex_digit (Byte.to_N b / 16) :: hex_digit (Byte.to_N b mod 16) :: toHex bytes.
Proof. done. Qed.

Lemma toHex_hex bytes :
  Forall (λ c, (48 ≤ c ≤ 57 ∨ 97 ≤ c ≤ 102)%N) (toHex bytes).
Proof.
  induction bytes as [|b bytes IH]; [constructor|].
  rewrite toHex_cons. destruct (byte_nibbles b).
  apply Forall_cons. split; [by apply hex_digit_range|].
  apply Forall_cons. split; [by apply hex_digit_range|done].
Qed.

Lemma toHex_inj bytes1 : ∀ bytes2, toHex bytes1 = toHex bytes2 → bytes1 = bytes2.
Proof.
  induction bytes1 as [|b1 bytes1 IH]; intros [|b2 bytes2]; try done.
  rewrite !toHex_cons. intros [= Hhigh Hlow Hrest].
  destruct (byte_nibbles b1), (byte_nibbles b2).
  apply hex_digit_inj in Hhigh, Hlow; [|done..].
  assert (Hn : Byte.to_N b1 = Byte.to_N b2).
  { rewrite (N.div_mod (Byte.to_N b1) 16), (N.div_mod (Byte.to_N b2) 16) by done.
    by rewrite Hhigh, Hlow. }
  assert (Hb : Some b1 = Some b2) by by rewrite <- !Byte.of_to_N, Hn.
  injection Hb as <-. f_equal. by apply IH.
Qed.

Lemma trim_toHex bytes : trim (toHex bytes) = toHex bytes.
Proof.
  apply trim_no_blank. eapply Forall_impl; [apply toHex_hex|].
  intros c Hc. by apply hex_not_blank.
Qed.

(** X6. The token of a new session is two lowercase hexadecimal digits per
    random byte, and different random bytes give different tokens. The new
    session replaces whatever the store held under that token, and every
    other session and every bucket is left as it was. *)
Theorem createSessionToken_spec cfg granted randomBytes now st :
  let token := (createSessionToken cfg granted randomBytes now st).1 in
  let st' := (createSessionToken cfg granted randomBytes now st).2 in
  length token = (2 * length randomBytes)%nat ∧
  Forall (λ c, (48 ≤ c ≤ 57 ∨ 97 ≤ c ≤ 102)%N) token ∧
  (∀ otherBytes granted' now' st0,
     (createSessionToken cfg granted' otherBytes now' st0).1 = token →
     otherBytes = randomBytes) ∧
  authSessions st' !! token =
    Some {| expiresAt := now + SESSION_TTL_MS cfg; role := granted |} ∧
  (∀ t, t ≠ token → authSessions st' !! t = authSessions st !! t) ∧
  bucket_heap st' = bucket_heap st ∧ rateBuckets st' = rateBuckets st.
Proof.
  cbn. split_and!; [apply toHex_length|apply toHex_hex| | | |done..].
  - intros otherBytes _ _ _. apply toHex_inj.
  - apply lookup_insert_eq.
  - intros t Ht. by apply lookup_insert_ne.
Qed.

(** ** Bearer tokens and the session check *)

(** X7. [getBearerToken] returns a token exactly when the [Authorization]
    header is the seven characters of "Bearer " followed by a text that
    does not trim to the empty string; the token is that text, trimmed. A
    missing header, another scheme or another case of "Bearer" give
    [null]. *)
Theorem getBearerToken_spec req token :
  getBearerToken req = Some token ↔
  ∃ rest,
    req_authorization req = Some (js "Bearer " ++ rest) ∧
    trim rest = token ∧ token ≠ [].
Proof.
  unfold getBearerToken, slice. split.
  - destruct (startsWith _ (js "Bearer ")) eqn:Hstarts; [|done].
    apply startsWith_app in Hstarts as [rest Hrest]. cbn [negb].
    rewrite Hrest, drop_app_length. intros [Htrim Hne]%nonempty_Some.
    exists rest. split_and!; [|congruence|done].
    destruct (req_authorization req) as [[|c header]|]; cbn in Hrest;
      [done|by rewrite Hrest|done].
  - intros (rest & Hheader & Htrim & Hne). rewrite Hheader.
    assert (Hdefault :
      default [] (nonempty (Some (js "Bearer " ++ rest))) = js "Bearer " ++ rest)
      by done.
    rewrite Hdefault.
    rewrite (proj2 (startsWith_app _ (js "Bearer "))) by by exists rest.
    cbn [negb]. rewrite drop_app_length.
    apply nonempty_Some. split; [by rewrite Htrim|done].
Qed.

Example getBearerToken_examples :
  getBearerToken (with_bearer (js "  abc123 ") (request_from "10.0.0.1" JUndefined))
    = Some (js "abc123") ∧
  getBearerToken (with_bearer (js "   ") (request_from "10.0.0.1" JUndefined)) = None ∧
  getBearerToken (request_from "10.0.0.1" JUndefined) = None.
Proof. by vm_compute. Qed.

Lemma hasValidSession_frame token now st :
  bucket_heap (hasValidSession token now st).2 = bucket_heap st ∧
  rateBuckets (hasValidSession token now st).2 = rateBuckets st.
Proof. unfold hasValidSession. by repeat case_match. Qed.


(** The header "Bearer " followed by a token without blanks reads back as
    that token. *)
Lemma getBearerToken_with_bearer token req :
  token ≠ [] → trim token = token →
  getBearerToken (with_bearer token req) = Some token.
Proof.
  intros Hne Htrim. unfold getBearerToken, slice. cbn [with_bearer req_authorization].
  assert (Hdefault :
    default [] (nonempty (Some (js "Bearer " ++ token))) = js "Bearer " ++ token)
    by done.
  rewrite Hdefault.
  rewrite (proj2 (startsWith_app _ (js "Bearer "))) by by exists token.
  cbn [negb]. rewrite drop_app_length, Htrim. by apply nonempty_Some.
Qed.


(** X9. The token a successful login answers with opens the protected
    routes: presented as [Authorization: Bearer <token>] on any request at
    any clock reading before [now + SESSION_TTL_MS], it passes
    [requireAuth], which leaves the state as the login left it. *)
Theorem login_token_authorizes cfg req other randomBytes now later st :
  isAuthEnabled cfg = true →
  randomBytes ≠ [] →
  readRequiredTextField (req_body req) (js "password") (MAX_PASSWORD_LENGTH cfg)
    = Normal (APP_PASSWORD cfg) →
  later < now + SESSION_TTL_MS cfg →
  let token := toHex randomBytes in
  let st' := (post_auth_login cfg req randomBytes now st).1 in
  (post_auth_login cfg req randomBytes now st).2 = login_reply cfg token (js "student") ∧
  requireAuth cfg (with_bearer token other) later st' = (st', Next).
Proof.
  intros Hauth Hbytes Hsubmitted Hlater. cbn zeta.
  unfold post_auth_login. rewrite Hauth, Hsubmitted.
  cbn [negb mbind completion_bind]. rewrite bool_decide_eq_true_2 by done.
  cbn [negb fst snd createSessionToken]. split; [done|].
  unfold requireAuth. rewrite Hauth. cbn [negb].
  rewrite getBearerToken_with_bearer
    by (by apply toHex_nonempty || apply trim_toHex).
  destruct (createSessionToken_valid cfg (js "student") randomBytes now st later)
    as [Hvalid _]; [done..|].
  cbn [createSessionToken snd] in Hvalid. by rewrite Hvalid.
Qed.

Lemma login_token_authorizes_witness :
  requireAuth default_config
    (with_bearer (toHex (repeat Byte.x2a 32))
       (request_from "10.0.0.9" (JObj [(js "content", JStr (js "cells"))])))
    1000
    (post_auth_login default_config (login_request (js "secret"))
       (repeat Byte.x2a 32) 0 init).1 =
  ((post_auth_login default_config (login_request (js "secret"))
      (repeat Byte.x2a 32) 0 init).1, Next).
Proof.
  apply (login_token_authorizes default_config (login_request (js "secret"))
           (request_from "10.0.0.9" (JObj [(js "content", JStr (js "cells"))]))
           (repeat Byte.x2a 32) 0 1000 init); by vm_compute.
Defined.

(** X10. Authentication is switched off exactly when [APP_PASSWORD] is
    unset or consists of blanks only. In that mode [requireAuth] lets every
    request through, both login routes answer 500 [AUTH_NOT_CONFIGURED]
    whatever the password, and the status route reports every caller as
    authenticated; none of them changes the state. *)
Theorem open_mode cfg :
  (isAuthEnabled cfg = false ↔
   Forall (λ c, isWhiteSpace c = true) (default [] (env_APP_PASSWORD cfg))) ∧
  (isAuthEnabled cfg = false →
   (∀ req now st, requireAuth cfg req now st = (st, Next)) ∧
   (∀ req randomBytes now st,
      post_auth_login cfg req randomBytes now st =
        (st, sendError [] (TApiError auth_not_configured)) ∧
      post_auth_prof_login cfg req randomBytes now st =
        (st, sendError [] (TApiError auth_not_configured))) ∧
   (∀ req now1 now2 st,
      get_auth_status cfg req now1 now2 st =
        (st, res_json (JObj [(js "authEnabled", JBool false);
                             (js "authenticated", JBool true)])))).
Proof.
  split.
  - unfold isAuthEnabled, APP_PASSWORD, jslength. rewrite <- trim_nil.
    destruct (trim _) as [|c rest]; cbn [length]; [done|].
    rewrite (proj2 (Z.ltb_lt 0 (Z.of_nat (S (length rest))))) by lia. done.
  - intros Hoff. split_and!.
    + intros req now st. unfold requireAuth. by rewrite Hoff.
    + intros req randomBytes now st.
      unfold post_auth_login, post_auth_prof_login. by rewrite Hoff.
    + intros req now1 now2 st. unfold get_auth_status. by rewrite Hoff.
Qed.

Lemma open_mode_witness :
  requireAuth (with_passwords (Some (js "   ")) None default_config)
    (request_from "10.0.0.1" JUndefined) 0 init = (init, Next).
Proof.
  apply (proj2 (open_mode (with_passwords (Some (js "   ")) None default_config))).
  by vm_compute.
Defined.

Lemma hasValidSession_stays_false token now1 now2 st :
  (hasValidSession token now1 st).1 = false →
  (hasValidSession token now2 (hasValidSession token now1 st).2).1 = false.
Proof.
  unfold hasValidSession.
  destruct (nonempty token) as [t|]; cbn [fst snd]; [|done].
  destruct (authSessions st !! t) as [session|] eqn:Hs; cbn [fst snd].
  - destruct (expiresAt session <=? now1); cbn [fst snd]; [|done].
    intros _. cbn. by rewrite lookup_delete_eq.
  - intros _. by rewrite Hs.
Qed.

(** X11. With authentication on, the status route answers 200 with
    [authenticated] as [hasValidSession] decides at the first clock reading
    and with a role; a role other than "student" is only reported with
    [authenticated: true]. The route never adds a session and never touches
    the buckets. *)
Theorem auth_status_consistent cfg req now1 now2 st :
  isAuthEnabled cfg = true →
  ∃ authenticated granted,
    (get_auth_status cfg req now1 now2 st).2 =
      res_json (JObj [(js "authEnabled", JBool true);
                      (js "authenticated", JBool authenticated);
                      (js "role", JStr granted)]) ∧
    authenticated = (hasValidSession (getBearerToken req) now1 st).1 ∧
    (granted ≠ js "student" → authenticated = true) ∧
    (∀ t session,
       authSessions (get_auth_status cfg req now1 now2 st).1 !! t = Some session →
       authSessions st !! t = Some session) ∧
    bucket_heap (get_auth_status cfg req now1 now2 st).1 = bucket_heap st ∧
    rateBuckets (get_auth_status cfg req now1 now2 st).1 = rateBuckets st.
Proof.
  intros Hauth. unfold get_auth_status. rewrite Hauth. cbn [negb].
  set (token := getBearerToken req).
  pose proof (hasValidSession_stays_false token now1 now2 st) as Hstays.
  pose proof (hasValidSession_frame token now1 st) as [Hheap1 Hmap1].
  assert (Hsub1 : ∀ t session,
    authSessions (hasValidSession token now1 st).2 !! t = Some session →
    authSessions st !! t = Some session).
  { intros t session. unfold hasValidSession. repeat case_match; try done.
    cbn. by intros [_ ?]%lookup_delete_Some. }
  destruct (hasValidSession token now1 st) as [authenticated st1]; cbn [fst snd] in *.
  pose proof (hasValidSession_frame token now2 st1) as [Hheap2 Hmap2].
  assert (Hsub2 : ∀ t session,
    authSessions (hasValidSession token now2 st1).2 !! t = Some session →
    authSessions st1 !! t = Some session).
  { intros t session. unfold hasValidSession. repeat case_match; try done.
    cbn. by intros [_ ?]%lookup_delete_Some. }
  destruct (hasValidSession token now2 st1) as [valid st2]; cbn [fst snd] in *.
  eexists authenticated, _. split_and!; [done|done| |by auto|congruence..].
  destruct valid; [|done]. destruct authenticated; [done|].
  intros _. by specialize (Hstays eq_refl).
Qed.

Lemma auth_status_consistent_witness :
  ∃ authenticated granted,
    (get_auth_status default_config
       (with_bearer (js "no-such-token") (request_from "10.0.0.1" JUndefined))
       0 1 init).2 =
      res_json (JObj [(js "authEnabled", JBool true);
                      (js "authenticated", JBool authenticated);
                      (js "role", JStr granted)]).
Proof.
  destruct (auth_status_consistent default_config
              (with_bearer (js "no-such-token") (request_from "10.0.0.1" JUndefined))
              0 1 init eq_refl) as (authenticated & granted & Hreply & _).
  by exists authenticated, granted.
Defined.

(** ** The validator's result *)



(** ** The upstream call *)

Lemma requireApiKey_cases cfg :
  requireApiKey cfg = Normal tt ∨
  requireApiKey cfg =
    throw_ApiError (new_ApiError 500 (js "MISSING_API_KEY")
                      (js "Missing OPENAI_API_KEY on server.")).
Proof. unfold requireApiKey. repeat case_match; auto. Qed.

Lemma readOpenAiError_status JSON_parse response :
  status (readOpenAiError JSON_parse response) =
    if Response.status response =? 429 then 429 else 502.
Proof. unfold readOpenAiError. by repeat case_match. Qed.

(** X13. [openaiJson] returns a value only when the key is configured, the
    fetch gave a 2xx response and its body parses to a truthy value, and
    then it returns that value: it never returns [null], [false], 0 or the
    empty string. Without a key it throws 500 [MISSING_API_KEY] whatever the
    fetch gave; a 2xx response whose body does not parse, or parses to a
    falsy value, is a 502 [UPSTREAM_INVALID_RESPONSE]; a rejected fetch is
    rethrown as it is. *)
Theorem openaiJson_spec JSON_parse cfg fetched :
  (∀ data,
     openaiJson JSON_parse cfg fetched = Normal data ↔
     requireApiKey cfg = Normal tt ∧
     ∃ response,
       fetched = Normal response ∧ Response.ok response = true ∧
       response_json JSON_parse response = data ∧ truthy data = true) ∧
  (requireApiKey cfg ≠ Normal tt →
   openaiJson JSON_parse cfg fetched =
     throw_ApiError (new_ApiError 500 (js "MISSING_API_KEY")
                       (js "Missing OPENAI_API_KEY on server."))) ∧
  (∀ response,
     requireApiKey cfg = Normal tt → fetched = Normal response →
     Response.ok response = true →
     truthy (response_json JSON_parse response) = false →
     openaiJson JSON_parse cfg fetched =
       throw_ApiError (new_ApiError 502 (js "UPSTREAM_INVALID_RESPONSE")
                         (js "OpenAI returned invalid JSON."))) ∧
  (∀ error,
     requireApiKey cfg = Normal tt → fetched = Throw error →
     openaiJson JSON_parse cfg fetched = Throw error).
Proof.
  unfold openaiJson. split_and!.
  - intros data. destruct (requireApiKey_cases cfg) as [-> | ->];
      cbn [mbind completion_bind throw_ApiError]; [|split; [done|by intros [? _]]].
    destruct fetched as [response|error]; cbn [mbind completion_bind];
      [|split; [done|by intros (_ & ? & ? & _)]].
    destruct (Response.ok response) eqn:Hok; cbn [negb].
    + destruct (truthy (response_json JSON_parse response)) eqn:Htruthy; cbn [negb].
      * split.
        -- intros [= <-]. split; [done|]. by exists response.
        -- by intros (_ & response' & [= <-] & _ & <- & _).
      * split; [done|]. intros (_ & response' & [= <-] & _ & <- & ?). congruence.
    + split; [done|]. intros (_ & response' & [= <-] & ? & _). congruence.
  - intros Hkey. by destruct (requireApiKey_cases cfg) as [? | ->].
  - intros response -> -> Hok Hfalsy. cbn [mbind completion_bind].
    by rewrite Hok, Hfalsy.
  - by intros error -> ->.
Qed.

(** ** The business routes *)

Lemma sendError_other_status error :
  (∀ e, error ≠ TApiError e) → reply_status (sendError [] error) = 500.
Proof. intros Hother. destruct error as [e| | |v]; try done. by destruct (Hother e). Qed.

Lemma openaiJson_failure_status JSON_parse cfg fetched error :
  (∀ e, fetched ≠ Throw (TApiError e)) →
  openaiJson JSON_parse cfg fetched = Throw error →
  reply_status (sendError [] error) ≠ 200.
Proof.
  intros Hfetch. unfold openaiJson.
  destruct (requireApiKey_cases cfg) as [-> | ->];
    cbn [mbind completion_bind throw_ApiError]; [|by intros [= <-]].
  destruct fetched as [response|thrown]; cbn [mbind completion_bind].
  - destruct (Response.ok response); cbn [negb].
    + destruct (truthy _); cbn [negb]; [done|]. by intros [= <-].
    + intros [= <-]. cbn. rewrite readOpenAiError_status. by case_match.
  - intros [= <-]. rewrite sendError_other_status; [done|].
    intros e ->. by apply (Hfetch e).
Qed.

(** X14. Every 200 answer of the summarize route carries a summary that is
    a non-empty string without a blank at either end: the trimmed content
    of the first upstream choice, or the fixed sentence when that content
    is missing or blank. (The fetch rejects with a network error, never
    with the server's own [ApiError].) *)
Theorem post_summarize_ok JSON_parse cfg req fetched :
  (∀ e, fetched ≠ Throw (TApiError e)) →
  reply_status (post_summarize JSON_parse cfg req fetched) = 200 →
  ∃ summary,
    post_summarize JSON_parse cfg req fetched =
      res_json (JObj [(js "summary", JStr summary)]) ∧
    summary ≠ [] ∧ trim summary = summary ∧
    (summary = js "Impossible de generer un resume." ∨
     ∃ data content,
       openaiJson JSON_parse cfg fetched = Normal data ∧
       first_choice_content data = JStr content ∧ summary = trim content).
Proof.
  intros Hfetch. unfold post_summarize.
  destruct (readRequiredTextField _ _ _) as [content|error] eqn:Hcontent;
    cbn [mbind completion_bind].
  2: { apply readRequiredTextField_throws in Hcontent as (e & -> & He & _).
       cbn. by rewrite He. }
  destruct (openaiJson JSON_parse cfg fetched) as [data|error] eqn:Hdata;
    cbn [mbind completion_bind].
  2: { intros Hstatus. by apply openaiJson_failure_status in Hdata. }
  destruct (first_choice_content data) as [| | | |s| |] eqn:Hfirst;
    cbn [opt_trim mbind completion_bind]; try done.
  - intros _. eexists. split; [done|]. split_and!; [done|by vm_compute|by left].
  - intros _. eexists. split; [done|]. split_and!; [done|by vm_compute|by left].
  - intros _. unfold js_or. cbn [truthy].
    destruct (decide (trim s = [])) as [Hblank|Hblank].
    + rewrite (bool_decide_eq_true_2 _ Hblank). cbn [negb].
      eexists. split; [done|]. split_and!; [done|by vm_compute|by left].
    + rewrite (bool_decide_eq_false_2 _ Hblank). cbn [negb].
      eexists. split; [done|]. split_and!; [done|apply trim_trim|].
      right. by exists data, s.
Qed.

Lemma post_summarize_ok_witness :
  ∃ summary,
    post_summarize example_parse default_config (content_request "cells")
      (Normal summary_response) =
      res_json (JObj [(js "summary", JStr summary)]) ∧
    summary ≠ [] ∧ trim summary = summary.
Proof.
  destruct (post_summarize_ok example_parse default_config (content_request "cells")
              (Normal summary_response)) as (summary & Hreply & Hne & Htrim & _);
    [done|reflexivity|].
  by exists summary.
Defined.

Example post_summarize_trims :
  post_summarize example_parse default_config (content_request "cells")
    (Normal summary_response) =
  res_json (JObj [(js "summary", JStr (js "Cells divide."))]).
Proof. reflexivity. Qed.

Lemma toBase64_length_le n : ∀ bytes,
  (length bytes ≤ n)%nat →
  length (toBase64 bytes) = (4 * ((length bytes + 2) / 3))%nat.
Proof.
  induction n as [|n IH]; intros bytes Hlen.
  { by destruct bytes; [|cbn in Hlen; lia]. }
  destruct bytes as [|a [|b [|c rest]]]; [done..|].
  cbn [toBase64 length app]. rewrite IH by (cbn in Hlen; lia).
  replace (S (S (S (length rest))) + 2)%nat with (1 * 3 + (length rest + 2))%nat by lia.
  rewrite Nat.div_add_l by done. lia.
Qed.

Lemma toBase64_nonempty bytes : bytes ≠ [] → toBase64 bytes ≠ [].
Proof. by destruct bytes as [|a [|b [|c rest]]]. Qed.

(** X15. Every 200 answer of the podcast route carries a data URL:
    "data:audio/mp3;base64," followed by the base64 text of the audio bytes
    the upstream sent, which are not empty; the text has four characters
    for every three bytes, rounded up. Empty audio is never answered with
    200. (Neither the fetch nor the reading of the body rejects with the
    server's own [ApiError].) *)
Theorem post_podcast_ok JSON_parse cfg req fetched arrayBuffer :
  (∀ e, fetched ≠ Throw (TApiError e)) →
  (∀ e, arrayBuffer ≠ Throw (TApiError e)) →
  reply_status (post_podcast JSON_parse cfg req fetched arrayBuffer) = 200 →
  ∃ buffer,
    arrayBuffer = Normal buffer ∧ buffer ≠ [] ∧
    post_podcast JSON_parse cfg req fetched arrayBuffer =
      res_json (JObj [(js "audioDataUrl",
                       JStr (js "data:audio/mp3;base64," ++ toBase64 buffer))]) ∧
    toBase64 buffer ≠ [] ∧
    length (toBase64 buffer) = (4 * ((length buffer + 2) / 3))%nat.
Proof.
  intros Hfetch Hread. unfold post_podcast.
  destruct (requireApiKey_cases cfg) as [-> | ->];
    cbn [mbind completion_bind throw_ApiError]; [|done].
  destruct (readRequiredTextField _ _ _) as [text|error] eqn:Htext;
    cbn [mbind completion_bind].
  2: { apply readRequiredTextField_throws in Htext as (e & -> & He & _).
       cbn. by rewrite He. }
  destruct fetched as [response|thrown]; cbn [mbind completion_bind].
  2: { rewrite sendError_other_status; [done|]. intros e ->. by apply (Hfetch e). }
  destruct (Response.ok response); cbn [negb].
  2: { cbn. rewrite readOpenAiError_status. by case_match. }
  destruct arrayBuffer as [buffer|thrown]; cbn [mbind completion_bind].
  2: { rewrite sendError_other_status; [done|]. intros e ->. by apply (Hread e). }
  case_bool_decide as Hempty; [done|]. intros _.
  exists buffer. split_and!; [done..|by apply toBase64_nonempty|].
  by apply (toBase64_length_le (length buffer)).
Qed.

Lemma post_podcast_ok_witness :
  ∃ buffer,
    Normal [Byte.x49; Byte.x44; Byte.x33; Byte.x04] = Normal buffer ∧ buffer ≠ [] ∧
    post_podcast example_parse default_config
      (request_from "10.0.0.1" (JObj [(js "text", JStr (js "Cells divide."))]))
      (Normal summary_response) (Normal [Byte.x49; Byte.x44; Byte.x33; Byte.x04]) =
      res_json (JObj [(js "audioDataUrl",
                       JStr (js "data:audio/mp3;base64," ++ toBase64 buffer))]).
Proof.
  destruct (post_podcast_ok example_parse default_config
              (request_from "10.0.0.1" (JObj [(js "text", JStr (js "Cells divide."))]))
              (Normal summary_response)
              (Normal [Byte.x49; Byte.x44; Byte.x33; Byte.x04]))
    as (buffer & Hbuffer & Hne & Hreply & _); [done|done|reflexivity|].
  by exists buffer.
Defined.

Example post_podcast_data_url :
  post_podcast example_parse default_config
    (request_from "10.0.0.1" (JObj [(js "text", JStr (js "Cells divide."))]))
    (Normal summary_response) (Normal [Byte.x49; Byte.x44; Byte.x33; Byte.x04]) =
  res_json (JObj [(js "audioDataUrl", JStr (js "data:audio/mp3;base64,SUQzBA=="))]).
Proof. reflexivity. Qed.

(** X16. The three business routes relay an upstream failure in the same
    way: once the body is valid and the key configured, a response that is
    not 2xx is answered with the error [readOpenAiError] builds from it:
    status 429 for an upstream 429 and 502 otherwise, with the upstream
    message in the details and the upstream request id, or [null] when the
    header is missing or empty. *)
Theorem upstream_failure_relayed JSON_parse cfg req response arrayBuffer :
  requireApiKey cfg = Normal tt →
  Response.ok response = false →
  let relayed := sendError [] (TApiError (readOpenAiError JSON_parse response)) in
  (∀ content,
     readRequiredTextField (req_body req) (js "content") (MAX_CONTENT_LENGTH cfg)
       = Normal content →
     post_summarize JSON_parse cfg req (Normal response) = relayed ∧
     post_flashcards JSON_parse cfg req (Normal response) = relayed) ∧
  (∀ text,
     readRequiredTextField (req_body req) (js "text") (MAX_PODCAST_TEXT_LENGTH cfg)
       = Normal text →
     post_podcast JSON_parse cfg req (Normal response) arrayBuffer = relayed) ∧
  reply_status relayed = (if Response.status response =? 429 then 429 else 502) ∧
  ∃ code message,
    reply_body relayed =
      error_body (JStr code) (JStr message)
        (JObj [(js "upstreamMessage", upstreamMessage JSON_parse response)])
        (js_or (Response.get response (js "x-request-id")) JNull).
Proof.
  intros Hkey Hok. cbn zeta. split_and!.
  - intros content Hcontent.
    unfold post_summarize, post_flashcards, openaiJson.
    rewrite Hcontent, Hkey. cbn [mbind completion_bind]. by rewrite Hok.
  - intros text Htext. unfold post_podcast. rewrite Hkey, Htext.
    cbn [mbind completion_bind]. by rewrite Hok.
  - cbn. apply readOpenAiError_status.
  - unfold readOpenAiError. repeat case_match; by eexists _, _.
Qed.

Lemma upstream_failure_relayed_witness :
  post_summarize example_parse default_config (content_request "cells")
    (Normal busy_response) =
  {| reply_status := 429;
     reply_headers := [];
     reply_body :=
       error_body (JStr (js "UPSTREAM_RATE_LIMIT"))
         (JStr (js "OpenAI rate limit reached. Retry later."))
         (JObj [(js "upstreamMessage", JStr (js "slow down"))])
         (JStr (js "req_123")) |}.
Proof.
  destruct (upstream_failure_relayed example_parse default_config
              (content_request "cells") busy_response (Throw TTypeError)
              eq_refl eq_refl) as [Hcontent _].
  destruct (Hcontent (js "cells") eq_refl) as [-> _]. reflexivity.
Defined.

(** X17. The order of the checks differs between the routes. Summarize and
    flashcards validate the body first: an invalid body is answered with
    the validator's 400 whatever the key and the upstream are. The podcast
    route checks the key first: without a key it answers 500
    [MISSING_API_KEY] whatever the body is. *)
Theorem error_precedence JSON_parse cfg req fetched arrayBuffer :
  (∀ error,
     readRequiredTextField (req_body req) (js "content") (MAX_CONTENT_LENGTH cfg)
       = Throw error →
     post_summarize JSON_parse cfg req fetched = sendError [] error ∧
     post_flashcards JSON_parse cfg req fetched = sendError [] error ∧
     reply_status (sendError [] error) = 400) ∧
  (requireApiKey cfg ≠ Normal tt →
   post_podcast JSON_parse cfg req fetched arrayBuffer =
     {| reply_status := 500;
        reply_headers := [];
        reply_body :=
          error_body (JStr (js "MISSING_API_KEY"))
            (JStr (js "Missing OPENAI_API_KEY on server.")) JNull JNull |}).
Proof.
  split.
  - intros error Hcontent. unfold post_summarize, post_flashcards.
    rewrite Hcontent. cbn [mbind completion_bind].
    apply readRequiredTextField_throws in Hcontent as (e & -> & He & _).
    split_and!; [done..|]. cbn. by rewrite He.
  - intros Hkey. unfold post_podcast.
    by destruct (requireApiKey_cases cfg) as [? | ->].
Qed.

Example error_precedence_example :
  let cfg := without_api_key default_config in
  let req := request_from "10.0.0.1" (JArr []) in
  reply_status (post_summarize example_parse cfg req (Throw TTypeError)) = 400 ∧
  reply_status (post_flashcards example_parse cfg req (Throw TTypeError)) = 400 ∧
  reply_status (post_podcast example_parse cfg req (Throw TTypeError) (Throw TTypeError))
    = 500.
Proof. by vm_compute. Qed.

Lemma post_flashcards_payload_witness :
  post_flashcards cards_parse default_config (content_request "cells")
    (Normal cards_response) =
  res_json
    (JObj [(js "flashcards",
            JArr [JObj [(js "id", JStr (js "1"));
                        (js "question", JStr (js "What divides?"));
                        (js "answer", JStr (js "Cells."))]])]).
Proof.
  destruct (post_flashcards_payload cards_parse default_config
              (content_request "cells") cards_response (js "cells") cards_data
              eq_refl eq_refl eq_refl eq_refl eq_refl) as [_ Hparsed].
  destruct (Hparsed cards_parsed eq_refl eq_refl) as [_ Hcards].
  by apply Hcards.
Defined.

(** ** The middleware chain *)












(** ** The retry hint and the sweep *)

Lemma resetAt_bound_step cfg st ev bound :
  event_time ev + RATE_LIMIT_WINDOW_MS cfg ≤ bound →
  (∀ ref bucket, bucket_heap st !! ref = Some bucket → resetAt bucket ≤ bound) →
  ∀ ref bucket, bucket_heap (step cfg st ev).1 !! ref = Some bucket →
    resetAt bucket ≤ bound.
Proof.
  intros Htime Hbound ref bucket. destruct ev as [req now|now]; cbn [step];
    [|apply Hbound].
  cbn in Htime. unfold rateLimitMiddleware.
  assert (Hfresh : ∀ b,
    resetAt b = now + RATE_LIMIT_WINDOW_MS cfg →
    bucket_heap (set_new_bucket st (getClientIp req) b) !! ref = Some bucket →
    resetAt bucket ≤ bound).
  { intros b Hb. cbn. intros [[_ H]|[_ <-]]%lookup_snoc_Some; [by eapply Hbound|lia]. }
  destruct (get_bucket st (getClientIp req)) as [[ref' current]|] eqn:Hget;
    [|by apply Hfresh].
  apply get_bucket_Some in Hget as [_ Hcurrent].
  destruct (resetAt current <=? now); [by apply Hfresh|].
  destruct (RATE_LIMIT_MAX_REQUESTS cfg <=? count current); cbn [fst];
    [apply Hbound|].
  cbn. destruct (decide (ref' = ref)) as [->|Hne].
  - rewrite list_lookup_insert_eq by by eapply lookup_lt_Some.
    intros [= <-]. cbn. by apply (Hbound _ _ Hcurrent).
  - rewrite list_lookup_insert_ne by done. apply Hbound.
Qed.

Lemma ceil_div_mono a b c : 0 < c → a ≤ b → ceil_div a c ≤ ceil_div b c.
Proof.
  intros Hc Hab. unfold ceil_div.
  pose proof (Z.div_le_mono (- b) (- a) c Hc ltac:(lia)). lia.
Qed.

(** X20. With a window that is not negative and a clock that does not run
    backwards, the retry hint of a denial is at least one second and at
    most the length of the window in seconds, rounded up; the [Retry-After]
    header and [retryAfterSeconds] in the details carry the same number. *)
Theorem retry_after_bounded cfg evs req now r :
  0 ≤ RATE_LIMIT_WINDOW_MS cfg →
  Forall (λ ev, event_time ev ≤ now) evs →
  (rateLimitMiddleware cfg req now (run cfg init evs)).2 = Reply r →
  ∃ retryAfterSeconds,
    1 ≤ retryAfterSeconds ≤ Z.max 1 (ceil_div (RATE_LIMIT_WINDOW_MS cfg) 1000) ∧
    r = {| reply_status := 429;
           reply_headers := [(js "Retry-After", js (pretty retryAfterSeconds))];
           reply_body :=
             error_body (JStr (js "RATE_LIMITED"))
               (JStr (js "Too many requests. Please retry later."))
               (rate_limited_details cfg retryAfterSeconds) JNull |}.
Proof.
  intros Hwindow Hclock.
  assert (Hbound : ∀ st,
    (∀ ref bucket, bucket_heap st !! ref = Some bucket →
       resetAt bucket ≤ now + RATE_LIMIT_WINDOW_MS cfg) →
    ∀ ref bucket, bucket_heap (run cfg st evs) !! ref = Some bucket →
      resetAt bucket ≤ now + RATE_LIMIT_WINDOW_MS cfg).
  { induction Hclock as [|ev evs Hev _ IH]; intros st Hst; [done|].
    cbn [run]. apply IH. apply resetAt_bound_step; [lia|done]. }
  specialize (Hbound init ltac:(done)).
  set (st := run cfg init evs) in *. unfold rateLimitMiddleware.
  destruct (get_bucket st (getClientIp req)) as [[ref current]|] eqn:Hget; [|done].
  apply get_bucket_Some in Hget as [_ Hcurrent]. apply Hbound in Hcurrent.
  destruct (Z.leb_spec (resetAt current) now); [done|].
  destruct (RATE_LIMIT_MAX_REQUESTS cfg <=? count current); [|done].
  cbn [snd]. intros [= <-].
  exists (Z.max 1 (ceil_div (resetAt current - now) 1000)). split; [|done].
  pose proof (ceil_div_mono (resetAt current - now) (RATE_LIMIT_WINDOW_MS cfg) 1000
                ltac:(lia) ltac:(lia)).
  lia.
Qed.

Lemma retry_after_bounded_witness :
  ∃ retryAfterSeconds,
    1 ≤ retryAfterSeconds ≤ 60 ∧
    (rateLimitMiddleware (with_max_requests 1 default_config)
       (request_from "10.0.0.1" JUndefined) 2500
       (run (with_max_requests 1 default_config) init
          [Request (request_from "10.0.0.1" JUndefined) 1000])).2 =
    Reply
      {| reply_status := 429;
         reply_headers := [(js "Retry-After", js (pretty retryAfterSeconds))];
         reply_body :=
           error_body (JStr (js "RATE_LIMITED"))
             (JStr (js "Too many requests. Please retry later."))
             (rate_limited_details (with_max_requests 1 default_config)
                retryAfterSeconds) JNull |}.
Proof.
  destruct (retry_after_bounded (with_max_requests 1 default_config)
              [Request (request_from "10.0.0.1" JUndefined) 1000]
              (request_from "10.0.0.1" JUndefined) 2500 _
              ltac:(by vm_compute) ltac:(by repeat constructor) eq_refl)
    as (n & Hn & Hr).
  exists n. split; [exact Hn|]. by rewrite <- Hr.
Defined.

(** After a sweep at [now], the bucket map and the session store hold
    exactly the entries that were there and are still live: the buckets
    with [now < resetAt] and the sessions with [now < expiresAt]. *)
Lemma sweep_spec now st :
  (∀ ip ref bucket,
     get_bucket (sweep now st) ip = Some (ref, bucket) ↔
     get_bucket st ip = Some (ref, bucket) ∧ now < resetAt bucket) ∧
  (∀ token session,
     authSessions (sweep now st) !! token = Some session ↔
     authSessions st !! token = Some session ∧ now < expiresAt session).
Proof.
  split.
  - intros ip ref bucket. rewrite get_bucket_sweep.
    destruct (get_bucket st ip) as [[ref' current]|]; [|by split; [|intros []]].
    destruct (Z.leb_spec (resetAt current) now); split; try done.
    + intros [[= <- <-] ?]. lia.
    + by intros [= <- <-].
    + by intros [? _].
  - intros token session. rewrite sessions_sweep.
    destruct (authSessions st !! token) as [session'|]; [|by split; [|intros []]].
    destruct (Z.leb_spec (expiresAt session') now); split; try done.
    + intros [[= <-] ?]. lia.
    + by intros [= <-].
    + by intros [? _].
Qed.
